(** * lib.reviews: allocation of unique slugs (models/thing-slug.js)

    The development embeds [ThingSlug.qualifiedSave] together with the
    part of the RethinkDB/thinky store it talks to (insert under the
    primary key [name], and [filter]/[orderBy]/[limit] queries) and the
    two JavaScript built-ins it calls, [Number] and [String].

    - Module [JS]: binary64 numbers as exact dyadic values,
      [Number(string)], [x + y] and [String(number)].
    - The table [thing_slugs] as a list of rows, with [save] and the
      queries.
    - [qualifiedSave] as a function of the table, and as a process that
      makes one store call per step, for runs that interleave.
    - The invariants of the data model, then the theorems. *)

From Stdlib Require Import ZArith Lia Bool.
From Stdlib Require Import Ascii String Decimal DecimalString DecimalN DecimalZ.
From stdpp Require Import base relations list strings.
Local Open Scope Z_scope.

(** * JavaScript numbers *)

Module JS.

(** A finite double is kept as an exact dyadic value [m * 2^e]; the sign
    of zero is dropped (the allocator only ever prints [x + 1], which is
    never a negative zero).  Strings are sequences of code units below
    256. *)
Inductive number := NaN | Infinity (neg : bool) | Finite (m e : Z).

(** [x === y] *)
Definition number_eqb (x y : number) : bool :=
  match x, y with
  | NaN, NaN => false
  | Infinity a, Infinity b => Bool.eqb a b
  | Finite m1 e1, Finite m2 e2 =>
      let e0 := Z.min e1 e2 in
      m1 * 2 ^ (e1 - e0) =? m2 * 2 ^ (e2 - e0)
  | _, _ => false
  end.

Definition isNaN (x : number) : bool :=
  match x with NaN => true | _ => false end.

(** [floor (log2 (p / q))] for positive [p] and [q]. *)
Definition ilog2 (p q : Z) : Z :=
  let l := Z.log2 p - Z.log2 q in
  if p * 2 ^ Z.max 0 (- l) <? q * 2 ^ Z.max 0 l then l - 1 else l.

(** [num / den] rounded to the nearest integer, ties to even. *)
Definition round_half_even (num den : Z) : Z :=
  let m := num / den in
  match 2 * (num mod den) ?= den with
  | Lt => m
  | Gt => m + 1
  | Eq => if Z.even m then m else m + 1
  end.

(** The double nearest to the rational [p / q] (with [0 <= p], [0 < q]),
    with sign [neg]: 53 significant bits, exponents down to [-1074]
    (subnormals), infinity from [2^1024] on. *)
Definition binary64 (neg : bool) (p q : Z) : number :=
  if p =? 0 then Finite 0 0 else
  let e := Z.max (-1074) (ilog2 p q - 52) in
  let m := round_half_even (p * 2 ^ Z.max 0 (- e)) (q * 2 ^ Z.max 0 e) in
  if (971 <? e) || ((e =? 971) && (m =? 2 ^ 53)) then Infinity neg
  else Finite (if neg then - m else m) e.

(** [x + y]: the exact sum, rounded. *)
Definition add (x y : number) : number :=
  match x, y with
  | NaN, _ | _, NaN => NaN
  | Infinity a, Infinity b => if Bool.eqb a b then Infinity a else NaN
  | Infinity a, Finite _ _ | Finite _ _, Infinity a => Infinity a
  | Finite m1 e1, Finite m2 e2 =>
      let e0 := Z.min e1 e2 in
      let s := m1 * 2 ^ (e1 - e0) + m2 * 2 ^ (e2 - e0) in
      binary64 (s <? 0) (Z.abs s * 2 ^ Z.max 0 e0) (2 ^ Z.max 0 (- e0))
  end.


(** ** [Number(string)]: the StringNumericLiteral grammar *)

(** White space and line terminators among the code units below 256:
    TAB, LF, VT, FF, CR, SP and NBSP. *)
Definition is_white (c : ascii) : bool :=
  match N_of_ascii c with
  | 9%N | 10%N | 11%N | 12%N | 13%N | 32%N | 160%N => true
  | _ => false
  end.

Fixpoint skip_white (s : string) : string :=
  match s with
  | String c s' => if is_white c then skip_white s' else s
  | EmptyString => s
  end.

(** DecimalDigits, read as a [Decimal.uint]. *)
Definition digit_of (c : ascii) : option (uint -> uint) :=
  match c with
  | "0" => Some D0 | "1" => Some D1 | "2" => Some D2 | "3" => Some D3
  | "4" => Some D4 | "5" => Some D5 | "6" => Some D6 | "7" => Some D7
  | "8" => Some D8 | "9" => Some D9 | _ => None
  end%char.

Fixpoint scan_digits (s : string) : uint * string :=
  match s with
  | String c s' =>
      match digit_of c with
      | Some d => let '(u, r) := scan_digits s' in (d u, r)
      | None => (Nil, s)
      end
  | EmptyString => (Nil, s)
  end.

Definition is_nil (u : uint) : bool :=
  match u with Nil => true | _ => false end.

(** Digits of hexadecimal, octal and binary literals. *)
Definition radix_digit (radix : N) (c : ascii) : option N :=
  (let n := N_of_ascii c in
   let v := if (48 <=? n) && (n <=? 57) then Some (n - 48)
            else if (97 <=? n) && (n <=? 102) then Some (n - 87)
            else if (65 <=? n) && (n <=? 70) then Some (n - 55)
            else None in
   match v with
   | Some d => if d <? radix then Some d else None
   | None => None
   end)%N.

Fixpoint scan_radix (radix : N) (s : string) (acc : N) (seen : bool)
  : N * bool * string :=
  match s with
  | String c s' =>
      match radix_digit radix c with
      | Some d => scan_radix radix s' (acc * radix + d)%N true
      | None => (acc, seen, s)
      end
  | EmptyString => (acc, seen, s)
  end.

Definition strip_prefix (p s : string) : option string :=
  if String.prefix p s
  then Some (String.substring (String.length p)
                              (String.length s - String.length p) s)
  else None.

(** ExponentPart, if there is a complete one. *)
Definition scan_exponent (s : string) : Z * string :=
  match s with
  | String c s' =>
      if (Ascii.eqb c "e" || Ascii.eqb c "E")%char then
        let '(neg, s'') :=
          match s' with
          | String "+" t => (false, t)
          | String "-" t => (true, t)
          | _ => (false, s')
          end in
        let '(u, r) := scan_digits s'' in
        if is_nil u then (0, s)
        else ((if neg then - Z.of_N (N.of_uint u) else Z.of_N (N.of_uint u)), r)
      else (0, s)
  | EmptyString => (0, s)
  end.

(** The value [m * 10^e] of a decimal literal, rounded. *)
Definition decimal_value (neg : bool) (m : N) (e : Z) : number :=
  binary64 neg (Z.of_N m * 10 ^ Z.max 0 e) (10 ^ Z.max 0 (- e)).

(** StrUnsignedDecimalLiteral: [Infinity], or digits with an optional
    fraction and exponent; one of the integer and fraction parts has to
    be there. *)
Definition scan_unsigned_decimal (neg : bool) (s : string)
  : option (number * string) :=
  match strip_prefix "Infinity" s with
  | Some r => Some (Infinity neg, r)
  | None =>
      let '(ip, r1) := scan_digits s in
      let '(fp, dot, r2) :=
        match r1 with
        | String "." t => let '(f, r) := scan_digits t in (f, true, r)
        | _ => (Nil, false, r1)
        end in
      if is_nil ip && is_nil fp then None
      else
        let '(ex, r3) := scan_exponent r2 in
        Some (decimal_value neg (N.of_uint (Decimal.app ip fp))
                (ex - Z.of_nat (Decimal.nb_digits fp)), r3)
  end.

(** [0x], [0o] and [0b] literals; they take no sign. *)
Definition scan_non_decimal (s : string) : option (number * string) :=
  match s with
  | String "0" (String c t) =>
      let radix :=
        if (Ascii.eqb c "x" || Ascii.eqb c "X")%char then Some 16%N
        else if (Ascii.eqb c "o" || Ascii.eqb c "O")%char then Some 8%N
        else if (Ascii.eqb c "b" || Ascii.eqb c "B")%char then Some 2%N
        else None in
      match radix with
      | Some rdx =>
          let '(v, seen, r) := scan_radix rdx t 0%N false in
          if seen then Some (binary64 false (Z.of_N v) 1, r) else None
      | None => None
      end
  | _ => None
  end.

Definition scan_numeric (s : string) : option (number * string) :=
  match scan_non_decimal s with
  | Some res => Some res
  | None =>
      match s with
      | String "+" t => scan_unsigned_decimal false t
      | String "-" t => scan_unsigned_decimal true t
      | _ => scan_unsigned_decimal false s
      end
  end.

(** The whole string has to be a literal between white space; the empty
    string is [0]. *)
Definition StringToNumber (s : string) : number :=
  let s1 := skip_white s in
  match s1 with
  | EmptyString => Finite 0 0
  | String _ _ =>
      match scan_numeric s1 with
      | Some (v, r) =>
          match skip_white r with
          | EmptyString => v
          | _ => NaN
          end
      | None => NaN
      end
  end.

(** [Number(v)] for a field that is a string or [undefined]. *)
Definition Number (v : option string) : number :=
  match v with
  | None => NaN
  | Some s => StringToNumber s
  end.

(** ** [String(number)]: Number::toString, radix 10 *)

(** The decimal numeral of an integer. *)
Definition dec (n : Z) : string := NilZero.string_of_int (Z.to_int n).

(** The number of decimal digits of a positive integer. *)
Definition ndigits (n : Z) : Z :=
  Z.of_nat (Decimal.nb_digits (N.to_uint (Z.to_N n))).

Fixpoint zeros (n : nat) : string :=
  match n with O => EmptyString | S n' => String "0" (zeros n') end.

(** The integer [m * 2^e], when it is one. *)
Definition to_integer (m e : Z) : option Z :=
  if 0 <=? e then Some (m * 2 ^ e)
  else if m mod 2 ^ (- e) =? 0 then Some (m / 2 ^ (- e)) else None.

(** Decimal exponent [n] of a positive rational: [10^(n-1) <= p/q < 10^n]. *)
Definition magnitude (p q : Z) : Z :=
  if q <=? p then ndigits (p / q) else 1 - ndigits ((q - 1) / p).

(** The [k]-digit decimals next to [p/q], if one of them denotes the
    double [x]: the closer one, the even one on a tie. *)
Definition try_digits (x : number) (p q n k : Z) : option (Z * Z) :=
  let num := p * 10 ^ Z.max 0 (k - n) in
  let den := q * 10 ^ Z.max 0 (n - k) in
  let lo := num / den in
  let r := num mod den in
  let reads s :=
    number_eqb
      (binary64 false (s * 10 ^ Z.max 0 (n - k)) (10 ^ Z.max 0 (k - n)))
      x in
  let pick s := if s =? 10 ^ k then (10 ^ (k - 1), n + 1) else (s, n) in
  if r =? 0 then Some (lo, n)
  else
    let hi := lo + 1 in
    let lo_first :=
      match 2 * r ?= den with
      | Lt => true
      | Gt => false
      | Eq => Z.even lo
      end in
    let '(a, b) := if lo_first then (lo, hi) else (hi, lo) in
    if reads a then Some (pick a)
    else if reads b then Some (pick b)
    else None.

(** The least number of digits [k] with which a decimal [s * 10^(n-k)]
    denotes [x]; 17 digits are enough for any double. *)
Fixpoint shortest (fuel : nat) (x : number) (p q n k : Z) : Z * Z * Z :=
  match fuel with
  | O => (p * 10 ^ Z.max 0 (k - n) / (q * 10 ^ Z.max 0 (n - k)), n, k)
  | S fuel' =>
      match try_digits x p q n k with
      | Some (s, n') => (s, n', k)
      | None => shortest fuel' x p q n (k + 1)
      end
  end.

(** The digits laid out: plain, with a decimal point, or in exponent
    notation beyond 21 digits and below [1e-6]. *)
Definition render (s n k : Z) : string :=
  let ds := dec s in
  if (k <=? n) && (n <=? 21) then ds +:+ zeros (Z.to_nat (n - k))
  else if (0 <? n) && (n <=? 21) then
    String.substring 0 (Z.to_nat n) ds +:+ "." +:+
    String.substring (Z.to_nat n) (Z.to_nat (k - n)) ds
  else if (-6 <? n) && (n <=? 0) then
    "0." +:+ zeros (Z.to_nat (- n)) +:+ ds
  else
    let e := n - 1 in
    let ex := (if e <? 0 then "-" else "+") +:+ dec (Z.abs e) in
    if k =? 1 then ds +:+ "e" +:+ ex
    else String.substring 0 1 ds +:+ "." +:+
         String.substring 1 (Z.to_nat (k - 1)) ds +:+ "e" +:+ ex.

(** [String(x)] for a positive [x = m * 2^e], by the shortest digits. *)
Definition positive_to_string (m e : Z) : string :=
  let p := m * 2 ^ Z.max 0 e in
  let q := 2 ^ Z.max 0 (- e) in
  let '(s, n, k) := shortest 17 (Finite m e) p q (magnitude p q) 1 in
  render s n k.

(** [String(x)].  An integer of magnitude up to [2^53] is written as its
    numeral (its shortest digits are the numeral without its final
    zeros, which the layout puts back). *)
Definition NumberToString (x : number) : string :=
  match x with
  | NaN => "NaN"
  | Infinity neg => if neg then "-Infinity" else "Infinity"
  | Finite m e =>
      let general :=
        (if m <? 0 then "-" else "") +:+ positive_to_string (Z.abs m) e in
      match to_integer m e with
      | Some z => if Z.abs z <=? 2 ^ 53 then dec z else general
      | None => general
      end
  end.

(** The integer a number is equal to, if any. *)
Definition integer_value (x : number) : option Z :=
  match x with
  | Finite m e => to_integer m e
  | _ => None
  end.

Definition signed (neg : bool) (m : Z) : Z := if neg then - m else m.

(** A string that does not begin with the N of "NaN". *)
Definition starts_plain (s : string) : Prop :=
  ∃ c rest, s = String c rest ∧ c ≠ "N"%char.

End JS.

(** * The table [thing_slugs] *)

(** thingSlugSchema: [name] is the primary key; [baseName] and
    [qualifierPart] may be missing ([undefined]); [createdOn] is a date,
    kept as milliseconds. *)
Record ThingSlug := {
  name : string;
  baseName : option string;
  qualifierPart : option string;
  thingID : string;
  createdOn : Z;
  createdBy : string
}.

#[global] Instance ThingSlug_eq_dec : EqDecision ThingSlug.
Proof. solve_decision. Defined.

Definition set_baseName (slug : ThingSlug) (b : string) : ThingSlug :=
  {| name := name slug; baseName := Some b;
     qualifierPart := qualifierPart slug; thingID := thingID slug;
     createdOn := createdOn slug; createdBy := createdBy slug |}.

Definition set_name (slug : ThingSlug) (n : string) : ThingSlug :=
  {| name := n; baseName := baseName slug;
     qualifierPart := qualifierPart slug; thingID := thingID slug;
     createdOn := createdOn slug; createdBy := createdBy slug |}.

Definition set_qualifierPart (slug : ThingSlug) (q : string) : ThingSlug :=
  {| name := name slug; baseName := baseName slug;
     qualifierPart := Some q; thingID := thingID slug;
     createdOn := createdOn slug; createdBy := createdBy slug |}.

(** Errors are told apart by their [name] property only. *)
Record Error := { error_name : string; error_message : string }.

#[global] Instance Error_eq_dec : EqDecision Error.
Proof. solve_decision. Defined.

(** What the store raises when the primary key of an inserted row is
    taken; the message (not looked at by the allocator) carries the key. *)
Definition DuplicatePrimaryKeyError (key : string) : Error :=
  {| error_name := "DuplicatePrimaryKeyError"; error_message := key |}.

(** The state of a promise once settled. *)
Inductive settled (A : Type) :=
| Fulfilled (a : A)
| Failed (error : Error).
Arguments Fulfilled {A} a.
Arguments Failed {A} error.

(** The rows of the table, in the store's own order. *)
Abbreviation table := (list ThingSlug).

Definition names (db : table) : list string := name <$> db.

(** [doc.save()] of a document that has not been saved before: an insert.
    [fault] is an error the call fails with for a reason of its own
    (validation, timeout, lost connection); without one the insert is
    refused when the key is taken and appends the row otherwise. *)
Definition save (fault : option Error) (db : table) (doc : ThingSlug)
  : table * settled ThingSlug :=
  match fault with
  | Some error => (db, Failed error)
  | None =>
      if bool_decide (name doc ∈ names db)
      then (db, Failed (DuplicatePrimaryKeyError (name doc)))
      else (db ++ [doc], Fulfilled doc)
  end.

(** [.orderBy(r.desc('createdOn'))]: a stable sort, latest row first. *)
Fixpoint insert_desc (r : ThingSlug) (l : table) : table :=
  match l with
  | [] => [r]
  | x :: l' =>
      if createdOn x <=? createdOn r then r :: l else x :: insert_desc r l'
  end.

Fixpoint orderBy_desc_createdOn (l : table) : table :=
  match l with
  | [] => []
  | r :: l' => insert_desc r (orderBy_desc_createdOn l')
  end.

(** [.filter({baseName: b, thingID: t})]; a row without the field does
    not match. *)
Definition filter_baseName_thingID (b t : string) (db : table) : table :=
  filter (λ r, baseName r = Some b ∧ thingID r = t) db.

(** [.filter({baseName: b})] *)
Definition filter_baseName (b : string) (db : table) : table :=
  filter (λ r, baseName r = Some b) db.

(** [<selection>.orderBy(r.desc('createdOn')).limit(1)], run against the
    store. *)
Definition latest (fault : option Error) (selection : table)
  : settled table :=
  match fault with
  | Some error => Failed error
  | None => Fulfilled (take 1 (orderBy_desc_createdOn selection))
  end.

(** * The allocator *)

(** The store calls a run of [qualifiedSave] makes, in order. *)
Inductive call :=
| Insert (doc : ThingSlug)
| QueryOwn (b t : string)
| QueryBase (b : string).

(** Lines 58-63: the qualifier after the most recent use of the base
    name. *)
Definition latestQualifier (slugs : table) : JS.number :=
  match slugs with
  | s0 :: _ =>
      if negb (JS.isNaN (JS.Number (qualifierPart s0)))
      then JS.add (JS.Number (qualifierPart s0)) (JS.Finite 1 0)
      else JS.Finite 2 0
  | [] => JS.Finite 2 0
  end.

(** Lines 64-65: rename the slug with the qualifier. *)
Definition qualify (slug : ThingSlug) (q : JS.number) : ThingSlug :=
  set_qualifierPart
    (set_name slug (name slug +:+ "-" +:+ JS.NumberToString q))
    (JS.NumberToString q).

Definition is_duplicate (error : Error) : bool :=
  String.eqb (error_name error) "DuplicatePrimaryKeyError".

(** [qualifiedSave], called on [this] against the table [db].  [faults i]
    is the fault, if any, of the [i]-th store call of this run.  The
    result is the table afterwards, the store calls made and how the
    returned promise settles. *)
Definition qualifiedSave (faults : nat → option Error) (db : table)
    (this : ThingSlug) : table * list call * settled ThingSlug :=
  let slug := set_baseName this (name this) in
  match save (faults 0%nat) db slug with
  | (db1, Fulfilled doc) => (db1, [Insert slug], Fulfilled doc)
  | (db1, Failed error) =>
      if is_duplicate error then
        match latest (faults 1%nat)
                (filter_baseName_thingID (name slug) (thingID slug) db1) with
        | Failed e =>
            (db1, [Insert slug; QueryOwn (name slug) (thingID slug)], Failed e)
        | Fulfilled (s0 :: _) =>
            (db1, [Insert slug; QueryOwn (name slug) (thingID slug)],
             Fulfilled s0)
        | Fulfilled [] =>
            match latest (faults 2%nat) (filter_baseName (name slug) db1) with
            | Failed e =>
                (db1, [Insert slug; QueryOwn (name slug) (thingID slug);
                       QueryBase (name slug)], Failed e)
            | Fulfilled slugs =>
                let slug' := qualify slug (latestQualifier slugs) in
                let '(db2, res) := save (faults 3%nat) db1 slug' in
                (db2, [Insert slug; QueryOwn (name slug) (thingID slug);
                       QueryBase (name slug); Insert slug'], res)
            end
        end
      else (db1, [Insert slug], Failed error)
  end.

(** Modelled from the spec: the caller of [qualifiedSave] (the subject
    layer, Thing.updateSlug, is not among the sources) builds the
    candidate of §4.1 step 1: [name = desiredName], the subject, the
    actor and the time of the call, no [qualifierPart]. *)
Definition candidate (desiredName subjectID actorID : string) (now : Z)
  : ThingSlug :=
  {| name := desiredName; baseName := None; qualifierPart := None;
     thingID := subjectID; createdOn := now; createdBy := actorID |}.

Definition Allocate (faults : nat → option Error) (db : table)
    (desiredName subjectID actorID : string) (now : Z)
  : table * list call * settled ThingSlug :=
  qualifiedSave faults db (candidate desiredName subjectID actorID now).

Definition no_fault : nat → option Error := λ _, None.

(** * One store call at a time *)

(** Between two store calls a run of [qualifiedSave] waits on a promise;
    other runs may use the store in between.  A stage records where a
    run stands and the slug object it works on. *)
Inductive stage :=
| Saving (this : ThingSlug)        (* about to run lines 29-31 *)
| QueryingOwn (slug : ThingSlug)   (* about to run lines 37-43 *)
| QueryingBase (slug : ThingSlug)  (* about to run lines 50-55 *)
| Resaving (slug : ThingSlug)      (* lines 58-65 done, about to run 66-67 *)
| Settled (res : settled ThingSlug).

(** The next store call of a run and the handlers attached to it. *)
Definition step (fault : option Error) (db : table) (st : stage)
  : table * stage :=
  match st with
  | Saving this =>
      let slug := set_baseName this (name this) in
      match save fault db slug with
      | (db1, Fulfilled doc) => (db1, Settled (Fulfilled doc))
      | (db1, Failed error) =>
          if is_duplicate error then (db1, QueryingOwn slug)
          else (db1, Settled (Failed error))
      end
  | QueryingOwn slug =>
      match latest fault
              (filter_baseName_thingID (name slug) (thingID slug) db) with
      | Failed e => (db, Settled (Failed e))
      | Fulfilled (s0 :: _) => (db, Settled (Fulfilled s0))
      | Fulfilled [] => (db, QueryingBase slug)
      end
  | QueryingBase slug =>
      match latest fault (filter_baseName (name slug) db) with
      | Failed e => (db, Settled (Failed e))
      | Fulfilled slugs =>
          (db, Resaving (qualify slug (latestQualifier slugs)))
      end
  | Resaving slug =>
      let '(db1, res) := save fault db slug in (db1, Settled res)
  | Settled res => (db, Settled res)
  end.

(** A run left alone with the store: its store calls back to back. *)
Fixpoint steps (n : nat) (faults : nat → option Error) (i : nat)
    (db : table) (st : stage) : table * stage :=
  match n with
  | O => (db, st)
  | S n' =>
      let '(db1, st1) := step (faults i) db st in
      steps n' faults (S i) db1 st1
  end.

(** Any number of runs against one store: a new call arrives, or one of
    the pending runs makes its next store call. *)
Definition config : Type := table * list stage.

Inductive sys_step : config → config → Prop :=
| sys_call db pool this :
    sys_step (db, pool) (db, pool ++ [Saving this])
| sys_store db pool i st fault db' st' :
    pool !! i = Some st →
    step fault db st = (db', st') →
    sys_step (db, pool) (db', <[i := st']> pool).

(** The records returned so far. *)
Definition returned (pool : list stage) (r : ThingSlug) : Prop :=
  Settled (Fulfilled r) ∈ pool.

(** What the primary key maintains: distinct names, and every returned
    record is a row of the table. *)
Definition persisted (cfg : config) : Prop :=
  NoDup (names cfg.1) ∧ ∀ r, returned cfg.2 r → r ∈ cfg.1.

(** §7 of the specification calls the rejection of the retry's insert by
    the primary key ConcurrentAllocationConflict; the code has no error
    of its own for it and passes the store's on. *)
Definition ConcurrentAllocationConflict (slug' : ThingSlug)
    (res : settled ThingSlug) : Prop :=
  res = Failed (DuplicatePrimaryKeyError (name slug')).

(** The run gets as far as the retry: the first insert collides, the
    subject has no row with this base name, and the query for the most
    recent use of the base name answers [slugs]. *)
Definition disambiguates (faults : nat → option Error) (db : table)
    (this : ThingSlug) (slugs : table) : Prop :=
  faults 0%nat = None ∧ name this ∈ names db ∧
  faults 1%nat = None ∧
  filter_baseName_thingID (name this) (thingID this) db = [] ∧
  latest (faults 2%nat) (filter_baseName (name this) db) = Fulfilled slugs.

(** The slug the retry inserts under the qualifier [q]. *)
Definition qualified (this : ThingSlug) (q : string) : ThingSlug :=
  {| name := name this +:+ "-" +:+ q; baseName := Some (name this);
     qualifierPart := Some q; thingID := thingID this;
     createdOn := createdOn this; createdBy := createdBy this |}.

(** The store calls of a run that goes through the retry. *)
Definition retry_calls (this : ThingSlug) (q : string) : list call :=
  [Insert (set_baseName this (name this));
   QueryOwn (name this) (thingID this); QueryBase (name this);
   Insert (qualified this q)].

(** The first insert was refused as a duplicate: the name is taken, or
    the call failed with an error that bears the primary key's name. *)
Definition collided (faults : nat → option Error) (db : table)
    (this : ThingSlug) : Prop :=
  faults 0%nat = None ∧ name this ∈ names db ∨
  ∃ e, faults 0%nat = Some e ∧ is_duplicate e = true.

(** Faults that are not the primary key's: time-outs, lost connections,
    validation errors. *)
Definition genuine (faults : nat → option Error) : Prop :=
  ∀ i e, faults i = Some e → is_duplicate e = false.

(** * Invariants of the data model (§3) *)

(** The structural invariant: without [qualifierPart] the name is the
    base name; with it the name is [baseName + "-" + qualifierPart] and
    the qualifier reads as an integer of at least 2. *)
Definition structured (r : ThingSlug) : Prop :=
  match baseName r, qualifierPart r with
  | Some b, None => name r = b
  | Some b, Some q =>
      name r = b +:+ "-" +:+ q ∧
      match JS.integer_value (JS.StringToNumber q) with
      | Some n => 2 ≤ n
      | None => False
      end
  | None, _ => False
  end.

(** The same with the qualifier at most [2^53], the last integer up to
    which doubles count one by one. *)
Definition safely_structured (r : ThingSlug) : Prop :=
  match baseName r, qualifierPart r with
  | Some b, None => name r = b
  | Some b, Some q =>
      name r = b +:+ "-" +:+ q ∧
      match JS.integer_value (JS.StringToNumber q) with
      | Some n => 2 ≤ n ≤ 2 ^ 53
      | None => False
      end
  | None, _ => False
  end.




(** Modelled from the spec: removal of a record.  §3 (Lifecycle) has
    records deleted as part of subject deletion, which is not among the
    sources; the row with the given name is dropped. *)
Definition delete (n : string) (db : table) : table :=
  filter (λ r, name r ≠ n) db.

(** * Sample data *)

Definition sample (n b : string) (q : option string) (subject : string)
    (at_ : Z) : ThingSlug :=
  {| name := n; baseName := Some b; qualifierPart := q;
     thingID := subject; createdOn := at_; createdBy := "actorX" |}.

Definition timeout (op : string) : Error :=
  {| error_name := "ReqlTimeoutError"; error_message := op |}.

(** * Runs under interference *)

(** The stages of one run whose store calls meet the tables and faults
    of [env], one after the other: between its calls other runs may have
    changed the table. *)
Fixpoint stages_in (env : list (option Error * table)) (st : stage)
  : stage :=
  match env with
  | [] => st
  | (fault, db) :: env' => stages_in env' (step fault db st).2
  end.

(** Store calls a run may still make. *)
Definition calls_left (st : stage) : nat :=
  match st with
  | Saving _ => 4
  | QueryingOwn _ => 3
  | QueryingBase _ => 2
  | Resaving _ => 1
  | Settled _ => 0
  end.

(** The qualifier the retry computes on the table [db] for the name [n]. *)
Definition retry_qualifier (n : string) (db : table) : string :=
  JS.NumberToString
    (latestQualifier
       (take 1 (orderBy_desc_createdOn (filter_baseName n db)))).

(** * frontend/adapters/wikidata-frontend-adapter.js *)

Module Wikidata.

(** [s.replace(/pat/, rep)] for a pattern that is a plain string and a
    replacement without [$]: the first occurrence is replaced. *)
Fixpoint replace_first (pat rep s : string) : string :=
  if String.prefix pat s
  then rep +:+ String.substring (String.length pat)
                 (String.length s - String.length pat) s
  else match s with
       | EmptyString => EmptyString
       | String c s' => String c (replace_first pat rep s')
       end.

(** [s.replace(/^pat/g, rep)]: anchored at the start, the pattern matches
    at most once. *)
Definition replace_start (pat rep s : string) : string :=
  if String.prefix pat s
  then rep +:+ String.substring (String.length pat)
                 (String.length s - String.length pat) s
  else s.

(** Lines 343-345. *)
Definition canonicalize (url : string) : string :=
  replace_first "/entity/" "/wiki/" (replace_start "http:" "https:" url).

(** A string without a slash: a host name, a Q number. *)
Fixpoint slashless (s : string) : bool :=
  match s with
  | EmptyString => true
  | String c s' => negb (Ascii.eqb c "/") && slashless s'
  end.

(** Settings of the adapter (lines 23-24). *)
Definition fetchResults : nat := 25.
Definition displayResults : nat := 7.

(** An entry of [data.search] in the answer of wbsearchentities, as far
    as the adapter reads it; the label and the description may be
    missing. *)
Record item := {
  label : option string;
  description : option string;
  concepturi : string;
  match_text : string
}.

(** A row of the autocomplete list. *)
Record result := {
  url : string;
  title : string;
  result_label : option string;
  result_description : option string
}.

(** [s.indexOf(sub) !== -1] *)
Fixpoint contains (sub s : string) : bool :=
  String.prefix sub s ||
  match s with
  | EmptyString => false
  | String _ s' => contains sub s'
  end.

(** A missing or empty string is falsy. *)
Definition truthy (s : option string) : bool :=
  match s with
  | Some (String _ _) => true
  | _ => false
  end.

Section search.

(** [String.prototype.toUpperCase], and the regular expressions parsed
    from the message 'wikidata title blacklist', each as the test it is
    ([regex.test(item.description)], the description possibly
    [undefined]). *)
Variable toUpperCase : string → string.
Variable blacklist : list (option string → bool).

(** Lines 237-241: some expression of the blacklist matches. *)
Definition blacklisted (it : item) : bool :=
  existsb (λ regex, regex (description it)) blacklist.

(** Lines 242-255. *)
Definition to_result (query : string) (it : item) : result :=
  {| url := canonicalize (concepturi it);
     title :=
       match label it with
       | Some l =>
           if truthy (label it) then
             if negb (contains (toUpperCase query) (toUpperCase l))
             then l +:+ " (" +:+ match_text it +:+ ")"
             else l
           else match_text it
       | None => match_text it
       end;
     result_label := label it;
     result_description := description it |}.

(** Lines 235-262: the loop over [data.search], with [this.results],
    [goodResults] and [resultIndex] as they stand. *)
Fixpoint itemloop (query : string) (items : list item)
    (results : list result) (goodResults resultIndex : nat)
  : list result * nat * nat :=
  match items with
  | [] => (results, goodResults, resultIndex)
  | it :: rest =>
      let resultIndex := S resultIndex in
      if blacklisted it
      then itemloop query rest results goodResults resultIndex
      else
        let results := results ++ [to_result query it] in
        let goodResults := S goodResults in
        if (displayResults <=? goodResults)%nat
        then (results, goodResults, resultIndex)
        else itemloop query rest results goodResults resultIndex
  end.

(** What is put under the list (lines 276-324). *)
Record navigation := {
  noResultsText : bool;
  previousPage : bool;
  placeholder : bool;
  moreResultsText : bool;
  nextPage : option nat
}.

(** [requestedOffset] is a number or [undefined]; [0] is falsy too. *)
Definition offset_truthy (requestedOffset : option nat) : bool :=
  match requestedOffset with
  | Some (S _) => true
  | _ => false
  end.

(** [requestedOffset || 0] *)
Definition offset_or_0 (requestedOffset : option nat) : nat :=
  default 0%nat requestedOffset.

(** The handler of the answer, for an answer that has a [search] array:
    the rows shown and the navigation.  [search_continue] tells whether
    [data['search-continue']] is defined. *)
Definition done_handler (query : string) (requestedOffset : option nat)
    (search : list item) (search_continue : bool)
  : list result * navigation :=
  let '(results, goodResults, resultIndex) :=
    itemloop query search [] 0 0 in
  let isFirstPage := negb (offset_truthy requestedOffset) in
  let apiSaysMoreResults := search_continue in
  let weKnowAboutMoreResults := (goodResults <? length search)%nat in
  let hasPagination :=
    negb isFirstPage || apiSaysMoreResults || weKnowAboutMoreResults in
  let more := apiSaysMoreResults || weKnowAboutMoreResults in
  (results,
   {| noResultsText := hasPagination && (goodResults =? 0)%nat;
      previousPage := negb isFirstPage;
      placeholder := more && isFirstPage;
      moreResultsText := more || negb isFirstPage;
      nextPage :=
        if more then Some (offset_or_0 requestedOffset + resultIndex)%nat
        else None |}).

End search.

(** ** Paging *)

(** [this.prevStack], the offsets of the pages before this one. *)
Abbreviation stack := (list (option nat)).

(** Lines 200-208: a request without offset is for the first page and
    empties the stack.  The page is known by its offset and the stack
    it leaves. *)
Definition requestFn (requestedOffset : option nat) (prevStack : stack)
  : option nat * stack :=
  (requestedOffset,
   if offset_truthy requestedOffset then prevStack else []).

(** [prevStack.pop()] *)
Definition pop (prevStack : stack) : option nat * stack :=
  match reverse prevStack with
  | [] => (None, [])
  | o :: rest => (o, reverse rest)
  end.

(** Lines 316-319: the handler of "next page" on a page that was asked
    for with [requestedOffset] and looked at [resultIndex] entries. *)
Definition click_next (pg : option nat * stack) (resultIndex : nat)
  : option nat * stack :=
  let '(requestedOffset, prevStack) := pg in
  requestFn (Some (offset_or_0 requestedOffset + resultIndex)%nat)
            (prevStack ++ [requestedOffset]).

(** Line 298: the handler of "previous page". *)
Definition click_previous (pg : option nat * stack) : option nat * stack :=
  let '(o, prevStack) := pop pg.2 in requestFn o prevStack.

(** ** Sample settings *)

(** [new RegExp(pat).test(d)] for a pattern without special characters;
    a missing description is tested as the string "undefined". *)
Definition test_literal (pat : string) (d : option string) : bool :=
  contains pat (default "undefined" d).

(** [toUpperCase] on strings of ASCII characters. *)
Definition ascii_upper (c : ascii) : ascii :=
  let n := N_of_ascii c in
  if ((97 <=? n) && (n <=? 122))%N then ascii_of_N (n - 32) else c.

Fixpoint upper (s : string) : string :=
  match s with
  | EmptyString => EmptyString
  | String c s' => String (ascii_upper c) (upper s')
  end.

Definition sample_item (l d : string) : item :=
  {| label := Some l; description := Some d;
     concepturi := "http://www.wikidata.org/entity/Q1";
     match_text := l |}.

End Wikidata.

(** * The feed of a thing's reviews

    The route of the Atom feed (routes of things, lines 177-181) takes
    the date of the feed from the reviews.  A date is its time value; a
    review may lack its date. *)

Module Feed.

Record review := { createdOn : option Z }.

(** Lines 179-180, one turn of the [forEach]: a date object is truthy,
    [undefined] is not, and two dates compare by their time values. *)
Definition newer (updatedDate : option Z) (r : review) : option Z :=
  match updatedDate, createdOn r with
  | None, d => d
  | Some u, Some d => if u <? d then Some d else Some u
  | Some u, None => Some u
  end.

(** Lines 177-181. *)
Definition updatedDate (feedItems : list review) : option Z :=
  foldl newer None feedItems.

End Feed.

(** * Facts about numbers *)

Module JSFacts.
Import JS.

Lemma ilog2_scaled v q : 0 < v → 0 < q → ilog2 (v * q) q = Z.log2 v.
Proof.
  intros Hv Hq. unfold ilog2.
  pose proof (Z.log2_mul_below v q Hv Hq) as Hlo.
  pose proof (Z.log2_mul_above v q ltac:(lia) ltac:(lia)) as Hhi.
  pose proof (Z.log2_nonneg v) as Hn.
  pose proof (Z.log2_spec v Hv) as [Hs1 Hs2].
  set (l := Z.log2 (v * q) - Z.log2 q) in *.
  assert (Hl : l = Z.log2 v ∨ l = Z.log2 v + 1) by lia.
  rewrite (Z.max_l 0 (- l)) by lia. rewrite (Z.max_r 0 l) by lia.
  rewrite Z.pow_0_r, Z.mul_1_r.
  destruct Hl as [-> | ->].
  - assert (q * 2 ^ Z.log2 v ≤ q * v) by (apply Z.mul_le_mono_nonneg_l; lia).
    destruct (Z.ltb_spec (v * q) (q * 2 ^ Z.log2 v)) as [Hc|Hc];
      [| reflexivity].
    rewrite (Z.mul_comm v q) in Hc. exfalso. revert H Hc.
    generalize (q * 2 ^ Z.log2 v) (q * v). intros; lia.
  - replace (Z.succ (Z.log2 v)) with (Z.log2 v + 1) in Hs2 by lia.
    assert (q * v < q * 2 ^ (Z.log2 v + 1)) by (apply Z.mul_lt_mono_pos_l; lia).
    destruct (Z.ltb_spec (v * q) (q * 2 ^ (Z.log2 v + 1))) as [Hc|Hc];
      [lia |].
    rewrite (Z.mul_comm v q) in Hc. exfalso. revert H Hc.
    generalize (q * 2 ^ (Z.log2 v + 1)) (q * v). intros; lia.
Qed.

Lemma round_half_even_exact a d : 0 < d → round_half_even (a * d) d = a.
Proof.
  intros Hd. unfold round_half_even.
  rewrite Z.mod_mul by lia. rewrite Z.div_mul by lia.
  rewrite Z.mul_0_r.
  destruct (Z.compare_spec 0 d); [exfalso; lia | reflexivity | exfalso; lia].
Qed.


Lemma binary64_exact neg v q :
  0 < v < 2 ^ 53 → 0 < q →
  binary64 neg (v * q) q
  = Finite (signed neg (v * 2 ^ (52 - Z.log2 v))) (Z.log2 v - 52).
Proof.
  intros [Hv Hb] Hq. unfold binary64.
  destruct (Z.eqb_spec (v * q) 0); [nia |].
  rewrite ilog2_scaled by lia.
  assert (Hl : 0 ≤ Z.log2 v < 53).
  { split; [apply Z.log2_nonneg |]. apply Z.log2_lt_pow2; lia. }
  rewrite (Z.max_r (-1074)) by lia.
  rewrite (Z.max_r 0 (- _)) by lia. rewrite (Z.max_l 0 (Z.log2 v - 52)) by lia.
  rewrite Z.pow_0_r, Z.mul_1_r.
  replace (- (Z.log2 v - 52)) with (52 - Z.log2 v) by lia.
  replace (v * q * 2 ^ (52 - Z.log2 v))
    with (v * 2 ^ (52 - Z.log2 v) * q) by lia.
  rewrite round_half_even_exact by lia.
  destruct (Z.ltb_spec 971 (Z.log2 v - 52)); [lia |].
  destruct (Z.eqb_spec (Z.log2 v - 52) 971); [lia |].
  reflexivity.
Qed.



Lemma signed_mul neg a b : signed neg (a * b) = signed neg a * b.
Proof. destruct neg; simpl; lia. Qed.

Lemma integer_value_exact neg v :
  0 < v < 2 ^ 53 →
  integer_value
    (Finite (signed neg (v * 2 ^ (52 - Z.log2 v))) (Z.log2 v - 52))
  = Some (signed neg v).
Proof.
  intros [Hv Hb].
  assert (Hl : 0 ≤ Z.log2 v < 53).
  { split; [apply Z.log2_nonneg |]. apply Z.log2_lt_pow2; lia. }
  unfold integer_value, to_integer. rewrite signed_mul.
  destruct (Z.leb_spec 0 (Z.log2 v - 52)) as [Hc|Hc].
  - replace (52 - Z.log2 v) with 0 by lia.
    replace (Z.log2 v - 52) with 0 by lia.
    rewrite Z.pow_0_r. f_equal. lia.
  - replace (- (Z.log2 v - 52)) with (52 - Z.log2 v) by lia.
    assert (0 < 2 ^ (52 - Z.log2 v)) by (apply Z.pow_pos_nonneg; lia).
    rewrite Z.mod_mul by lia. rewrite Z.div_mul by lia. reflexivity.
Qed.

(** Rounding a quotient that is an integer below [2^53] in magnitude
    gives that integer. *)
Lemma binary64_integer neg v q :
  0 ≤ v < 2 ^ 53 → 0 < q →
  integer_value (binary64 neg (v * q) q) = Some (signed neg v).
Proof.
  intros [Hv Hb] Hq.
  destruct (Z.eq_dec v 0) as [-> | Hne].
  - destruct neg; reflexivity.
  - rewrite binary64_exact by lia. apply integer_value_exact. lia.
Qed.

Lemma to_integer_scale m e n :
  to_integer m e = Some n → e < 0 → m = n * 2 ^ (- e).
Proof.
  unfold to_integer. intros H He.
  destruct (Z.leb_spec 0 e); [lia |].
  assert (0 < 2 ^ (- e)) by (apply Z.pow_pos_nonneg; lia).
  destruct (Z.eqb_spec (m mod 2 ^ (- e)) 0) as [Hm|]; [| discriminate].
  injection H as <-.
  rewrite (Z.div_mod m (2 ^ (- e))) at 1 by lia. lia.
Qed.

Lemma add_one_integer x n :
  integer_value x = Some n → Z.abs (n + 1) < 2 ^ 53 →
  integer_value (add x (Finite 1 0)) = Some (n + 1).
Proof.
  destruct x as [| |m e]; try discriminate. simpl integer_value at 1.
  intros Hx Hb. unfold add.
  destruct (Z.leb_spec 0 e) as [He|He].
  - assert (Hn : n = m * 2 ^ e).
    { unfold to_integer in Hx. destruct (Z.leb_spec 0 e); [| lia]. congruence. }
    rewrite (Z.min_r e 0) by lia.
    rewrite Z.sub_0_r, Z.sub_0_r, Z.pow_0_r, Z.mul_1_r, <- Hn.
    change (Z.max 0 0) with 0. change (Z.max 0 (- 0)) with 0.
    rewrite Z.pow_0_r.
    rewrite binary64_integer by lia. f_equal.
    unfold signed. destruct (Z.ltb_spec (n + 1) 0); lia.
  - pose proof (to_integer_scale _ _ _ Hx He) as Hm.
    rewrite (Z.min_l e 0) by lia.
    rewrite Z.sub_diag, Z.pow_0_r, Z.mul_1_r, Z.sub_0_l, Z.mul_1_l.
    rewrite (Z.max_l 0 e) by lia. rewrite (Z.max_r 0 (- e)) by lia.
    rewrite Z.pow_0_r, Z.mul_1_r.
    assert (Hq : 0 < 2 ^ (- e)) by (apply Z.pow_pos_nonneg; lia).
    replace (m + 2 ^ (- e)) with ((n + 1) * 2 ^ (- e)) by lia.
    rewrite Z.abs_mul, (Z.abs_eq (2 ^ (- e))) by lia.
    rewrite binary64_integer by lia. f_equal.
    unfold signed.
    destruct (Z.ltb_spec ((n + 1) * 2 ^ (- e)) 0); nia.
Qed.


Lemma binary64_pow53 neg q :
  0 < q → binary64 neg (2 ^ 53 * q) q = Finite (signed neg (2 ^ 52)) 1.
Proof.
  intros Hq. unfold binary64.
  destruct (Z.eqb_spec (2 ^ 53 * q) 0); [lia |].
  rewrite ilog2_scaled by lia.
  change (Z.log2 (2 ^ 53)) with 53. change (Z.max (-1074) (53 - 52)) with 1.
  change (Z.max 0 (- 1)) with 0. change (Z.max 0 1) with 1.
  rewrite Z.pow_0_r, Z.mul_1_r.
  replace (2 ^ 53 * q) with (2 ^ 52 * (q * 2 ^ 1)) by lia.
  rewrite round_half_even_exact by lia. reflexivity.
Qed.

Lemma binary64_pow53_succ q :
  0 < q → binary64 false ((2 ^ 53 + 1) * q) q = Finite (2 ^ 52) 1.
Proof.
  intros Hq. unfold binary64.
  destruct (Z.eqb_spec ((2 ^ 53 + 1) * q) 0); [lia |].
  rewrite ilog2_scaled by lia.
  change (Z.log2 (2 ^ 53 + 1)) with 53. change (Z.max (-1074) (53 - 52)) with 1.
  change (Z.max 0 (- 1)) with 0. change (Z.max 0 1) with 1.
  rewrite Z.pow_0_r, Z.mul_1_r. unfold round_half_even.
  assert (Hdiv : (2 ^ 53 + 1) * q / (q * 2 ^ 1) = 2 ^ 52).
  { symmetry. apply (Z.div_unique _ _ _ q); lia. }
  assert (Hmod : ((2 ^ 53 + 1) * q) mod (q * 2 ^ 1) = q).
  { symmetry. apply (Z.mod_unique _ _ (2 ^ 52)); lia. }
  rewrite Hdiv, Hmod.
  replace (q * 2 ^ 1) with (2 * q) by lia. rewrite Z.compare_refl.
  reflexivity.
Qed.

(** Above [2^53 - 1] adding one is no longer exact: [2^53 + 1] is not a
    double and the sum rounds back to [2^53]. *)
Lemma add_one_integer_max x n :
  integer_value x = Some n → n = 2 ^ 53 - 1 ∨ n = 2 ^ 53 →
  integer_value (add x (Finite 1 0)) = Some (2 ^ 53).
Proof.
  destruct x as [| |m e]; try discriminate. simpl integer_value at 1.
  intros Hx Hn. unfold add.
  destruct (Z.leb_spec 0 e) as [He|He].
  - assert (Hm : n = m * 2 ^ e).
    { unfold to_integer in Hx. destruct (Z.leb_spec 0 e); [| lia]. congruence. }
    rewrite (Z.min_r e 0) by lia.
    rewrite Z.sub_0_r, Z.sub_0_r, Z.pow_0_r, Z.mul_1_r, <- Hm.
    change (Z.max 0 0) with 0. change (Z.max 0 (- 0)) with 0.
    rewrite Z.pow_0_r.
    destruct Hn as [-> | ->]; reflexivity.
  - pose proof (to_integer_scale _ _ _ Hx He) as Hm.
    rewrite (Z.min_l e 0) by lia.
    rewrite Z.sub_diag, Z.pow_0_r, Z.mul_1_r, Z.sub_0_l, Z.mul_1_l.
    rewrite (Z.max_l 0 e) by lia. rewrite (Z.max_r 0 (- e)) by lia.
    rewrite Z.pow_0_r, Z.mul_1_r.
    assert (Hq : 0 < 2 ^ (- e)) by (apply Z.pow_pos_nonneg; lia).
    replace (m + 2 ^ (- e)) with ((n + 1) * 2 ^ (- e)) by lia.
    rewrite Z.abs_mul, (Z.abs_eq (2 ^ (- e))) by lia.
    assert (Hs : ((n + 1) * 2 ^ (- e) <? 0) = false).
    { apply Z.ltb_ge. apply Z.mul_nonneg_nonneg; lia. }
    rewrite Hs.
    destruct Hn as [-> | ->].
    + replace (Z.abs (2 ^ 53 - 1 + 1)) with (2 ^ 53) by reflexivity.
      rewrite binary64_pow53 by lia. reflexivity.
    + replace (Z.abs (2 ^ 53 + 1)) with (2 ^ 53 + 1) by reflexivity.
      rewrite binary64_pow53_succ by lia. reflexivity.
Qed.

Lemma NumberToString_integer x z :
  integer_value x = Some z → Z.abs z ≤ 2 ^ 53 → NumberToString x = dec z.
Proof.
  destruct x as [| |m e]; try discriminate. simpl. intros -> Hz.
  destruct (Z.leb_spec (Z.abs z) (2 ^ 53)); [reflexivity | lia].
Qed.


(** *** Decimal numerals *)

Lemma scan_digits_numeral u :
  scan_digits (NilEmpty.string_of_uint u) = (u, EmptyString).
Proof. induction u; simpl; try rewrite IHu; reflexivity. Qed.

Lemma scan_numeric_numeral u :
  u ≠ Nil →
  scan_numeric (NilEmpty.string_of_uint u)
  = Some (decimal_value false (N.of_uint u) 0, EmptyString).
Proof.
  intros Hu.
  assert (Hnd : scan_non_decimal (NilEmpty.string_of_uint u) = None).
  { destruct u as [|u|u|u|u|u|u|u|u|u|u]; try reflexivity.
    destruct u; reflexivity. }
  assert (Hun : scan_unsigned_decimal false (NilEmpty.string_of_uint u)
                = Some (decimal_value false (N.of_uint u) 0, EmptyString)).
  { unfold scan_unsigned_decimal.
    assert (Hp : strip_prefix "Infinity" (NilEmpty.string_of_uint u) = None)
      by (destruct u; reflexivity).
    rewrite Hp, scan_digits_numeral. simpl.
    rewrite DecimalFacts.app_nil_r.
    destruct u; [congruence | reflexivity ..]. }
  unfold scan_numeric. rewrite Hnd.
  destruct u; [congruence | exact Hun ..].
Qed.

Lemma StringToNumber_numeral u :
  u ≠ Nil →
  StringToNumber (NilEmpty.string_of_uint u)
  = decimal_value false (N.of_uint u) 0.
Proof.
  intros Hu. unfold StringToNumber. cbv zeta.
  assert (Hw : skip_white (NilEmpty.string_of_uint u)
               = NilEmpty.string_of_uint u)
    by (destruct u; reflexivity).
  rewrite Hw, scan_numeric_numeral by assumption.
  destruct u; [congruence | reflexivity ..].
Qed.

Lemma dec_nonneg n :
  0 ≤ n → dec n = NilEmpty.string_of_uint (N.to_uint (Z.to_N n)).
Proof.
  intros Hn. unfold dec. destruct n as [|p|p]; [reflexivity | | lia].
  simpl. pose proof (DecimalPos.Unsigned.to_uint_nonnil p) as Hp.
  destruct (Pos.to_uint p); [congruence | reflexivity ..].
Qed.

Lemma Number_dec n :
  0 ≤ n → Number (Some (dec n)) = binary64 false (n * 1) 1.
Proof.
  intros Hn. rewrite dec_nonneg by assumption. simpl Number.
  rewrite StringToNumber_numeral.
  - unfold decimal_value. rewrite DecimalN.Unsigned.of_to.
    rewrite Z2N.id by assumption. reflexivity.
  - destruct (Z.to_N n); [discriminate |].
    apply DecimalPos.Unsigned.to_uint_nonnil.
Qed.

(** A numeral of at most [2^53] reads back as the integer it writes. *)
Lemma integer_value_Number_dec n :
  0 ≤ n ≤ 2 ^ 53 → integer_value (Number (Some (dec n))) = Some n.
Proof.
  intros [Hn Hb]. rewrite Number_dec by assumption.
  destruct (Z.eq_dec n (2 ^ 53)) as [-> | Hne]; [reflexivity |].
  apply (binary64_integer false). all: lia.
Qed.


(** *** What a number is written with *)

Lemma dec_starts_plain z : starts_plain (dec z).
Proof.
  unfold dec, NilZero.string_of_int, NilZero.string_of_uint.
  destruct (Z.to_int z) as [d|d].
  - destruct d; simpl; by eexists _, _.
  - by eexists _, _.
Qed.

Lemma append_starts_plain s t : starts_plain s → starts_plain (s +:+ t).
Proof. intros (c & rest & -> & Hc). simpl. by eexists _, _. Qed.

Lemma render_starts_plain s n k : starts_plain (render s n k).
Proof.
  unfold render. destruct (dec_starts_plain s) as (c & rest & Hds & Hc).
  rewrite Hds.
  repeat match goal with
         | |- context [if ?b then _ else _] => destruct b
         end; simpl; try by eexists _, _.
  destruct (Z.to_nat n); simpl; by eexists _, _.
Qed.

Lemma NumberToString_starts_plain x :
  isNaN x = false → starts_plain (NumberToString x).
Proof.
  destruct x as [| neg | m e]; [discriminate | |]; intros _.
  - destruct neg; by eexists _, _.
  - assert (Hgen : starts_plain
              ((if m <? 0 then "-" else "")
               +:+ positive_to_string (Z.abs m) e)).
    { destruct (m <? 0); [by eexists _, _ |]. simpl.
      unfold positive_to_string.
      destruct (shortest _ _ _ _ _ _) as [[s n] k].
      apply render_starts_plain. }
    simpl. destruct (to_integer m e) as [z|]; [| exact Hgen].
    destruct (Z.abs z <=? 2 ^ 53); [apply dec_starts_plain | exact Hgen].
Qed.

(** The numeral of a safe integer is what the search for the shortest
    digits yields. *)
Lemma numeral_is_shortest :
  Forall (λ z, positive_to_string z 0 = dec z)
         [1; 2; 3; 10; 12; 100; 120; 1000; 65536; 123456789;
          9000000000000000; 9007199254740991; 9007199254740992].
Proof. repeat constructor. Qed.

End JSFacts.

(** * Facts about the store *)

(** Membership in a concrete table, by evaluation. *)
Ltac by_decide :=
  match goal with
  | |- ¬ ?P => apply (bool_decide_eq_false_1 P); vm_compute; reflexivity
  | |- ?P => apply (bool_decide_eq_true_1 P); vm_compute; reflexivity
  end.

Section store_facts.
Implicit Types (db sel l : table) (r doc x y : ThingSlug).

Lemma save_fulfilled fault db doc db' r :
  save fault db doc = (db', Fulfilled r) →
  fault = None ∧ (name doc ∉ names db) ∧ r = doc ∧ db' = db ++ [doc].
Proof.
  unfold save. destruct fault; [discriminate |].
  case_bool_decide; [discriminate |].
  intros [= <- <-]. auto.
Qed.

Lemma save_failed fault db doc db' e :
  save fault db doc = (db', Failed e) →
  db' = db ∧
  (fault = Some e ∨
   fault = None ∧ (name doc ∈ names db) ∧
   e = DuplicatePrimaryKeyError (name doc)).
Proof.
  unfold save. destruct fault as [e'|].
  - intros [= <- <-]. auto.
  - case_bool_decide; [| discriminate].
    intros [= <- <-]. auto.
Qed.

Lemma save_free db doc :
  name doc ∉ names db → save None db doc = (db ++ [doc], Fulfilled doc).
Proof. intros H. unfold save. by rewrite bool_decide_eq_false_2. Qed.

Lemma save_taken db doc :
  name doc ∈ names db →
  save None db doc = (db, Failed (DuplicatePrimaryKeyError (name doc))).
Proof. intros H. unfold save. by rewrite bool_decide_eq_true_2. Qed.

Lemma names_snoc db doc : names (db ++ [doc]) = names db ++ [name doc].
Proof. unfold names. by rewrite fmap_app. Qed.

(** The primary key: an insert keeps the names of the table distinct. *)
Lemma save_NoDup fault db doc db' res :
  NoDup (names db) → save fault db doc = (db', res) → NoDup (names db').
Proof.
  intros Hnd Hs. destruct res as [r|e].
  - apply save_fulfilled in Hs as (_ & Hfree & _ & ->).
    rewrite names_snoc. apply NoDup_app.
    split_and!; [done | | apply NoDup_singleton].
    intros x Hx ->%list_elem_of_singleton. done.
  - by apply save_failed in Hs as [-> _].
Qed.

Lemma insert_desc_elem r x l : x ∈ insert_desc r l ↔ x = r ∨ x ∈ l.
Proof.
  induction l as [|y l IH]; simpl.
  - rewrite list_elem_of_singleton, elem_of_nil. tauto.
  - destruct (createdOn y <=? createdOn r).
    + rewrite !elem_of_cons. tauto.
    + rewrite !elem_of_cons, IH. tauto.
Qed.

Lemma orderBy_elem x l : x ∈ orderBy_desc_createdOn l ↔ x ∈ l.
Proof.
  induction l as [|y l IH]; simpl; [done |].
  rewrite insert_desc_elem, elem_of_cons, IH. done.
Qed.

Lemma insert_desc_head r l s0 rest :
  (∀ h t, l = h :: t → ∀ x, x ∈ l → createdOn x ≤ createdOn h) →
  insert_desc r l = s0 :: rest →
  ∀ x, x ∈ r :: l → createdOn x ≤ createdOn s0.
Proof.
  destruct l as [|y l]; simpl.
  - intros _ [= <- <-] x ->%list_elem_of_singleton. lia.
  - intros Hmax. specialize (Hmax y l eq_refl).
    destruct (Z.leb_spec (createdOn y) (createdOn r)).
    + intros [= <- <-] x [-> | Hx]%elem_of_cons; [lia |].
      specialize (Hmax x Hx). lia.
    + intros [= <- <-] x [-> | Hx]%elem_of_cons; [lia |].
      by apply Hmax.
Qed.

(** The first row of the ordered selection is a most recent one. *)
Lemma orderBy_head l s0 rest :
  orderBy_desc_createdOn l = s0 :: rest →
  s0 ∈ l ∧ ∀ x, x ∈ l → createdOn x ≤ createdOn s0.
Proof.
  intros H. split.
  { apply orderBy_elem. rewrite H. left. }
  revert s0 rest H. induction l as [|y l IH]; intros s0 rest; simpl;
    [discriminate |].
  intros H x Hx.
  assert (Hx' : x ∈ y :: orderBy_desc_createdOn l).
  { apply elem_of_cons in Hx as [-> | Hx]; [left | right].
    by apply orderBy_elem. }
  eapply insert_desc_head; [| exact H | exact Hx'].
  intros h t Ht z Hz. apply (IH h t Ht). by apply orderBy_elem.
Qed.

Lemma orderBy_nil l : orderBy_desc_createdOn l = [] ↔ l = [].
Proof.
  split; [| by intros ->].
  destruct l as [|y l]; [done |]. intros H.
  assert (y ∈ orderBy_desc_createdOn (y :: l)) as Hy
    by (apply orderBy_elem; left).
  rewrite H in Hy. by apply elem_of_nil in Hy.
Qed.

Lemma latest_cons sel s0 rest :
  latest None sel = Fulfilled (s0 :: rest) →
  rest = [] ∧ s0 ∈ sel ∧
  ∀ x, x ∈ sel → createdOn x ≤ createdOn s0.
Proof.
  unfold latest. intros [= H].
  destruct (orderBy_desc_createdOn sel) as [|h t] eqn:Ho; [discriminate |].
  simpl in H. rewrite take_0 in H. injection H as <- <-.
  split; [done |]. by eapply orderBy_head.
Qed.

Lemma latest_nil sel : latest None sel = Fulfilled [] ↔ sel = [].
Proof.
  unfold latest. split.
  - intros [= H]. apply orderBy_nil.
    destruct (orderBy_desc_createdOn sel); [done | discriminate].
  - by intros ->.
Qed.

Lemma latest_fault e sel : latest (Some e) sel = Failed e.
Proof. reflexivity. Qed.

Lemma latest_failed fault sel e :
  latest fault sel = Failed e → fault = Some e.
Proof. destruct fault; simpl; congruence. Qed.

Lemma filter_own_elem b t db r :
  r ∈ filter_baseName_thingID b t db ↔
  (baseName r = Some b ∧ thingID r = t) ∧ r ∈ db.
Proof. unfold filter_baseName_thingID. by rewrite list_elem_of_filter. Qed.

Lemma filter_base_elem b db r :
  r ∈ filter_baseName b db ↔ baseName r = Some b ∧ r ∈ db.
Proof. unfold filter_baseName. by rewrite list_elem_of_filter. Qed.


(** Under the primary key a row is determined by its name. *)
Lemma NoDup_names_inj db r1 r2 :
  NoDup (names db) → r1 ∈ db → r2 ∈ db →
  name r1 = name r2 → r1 = r2.
Proof.
  intros Hnd [i Hi]%list_elem_of_lookup [j Hj]%list_elem_of_lookup Hn.
  assert (i = j) as ->.
  { eapply NoDup_lookup; [exact Hnd | |];
      unfold names; rewrite list_lookup_fmap.
    - by rewrite Hi.
    - rewrite Hj. simpl. by rewrite Hn. }
  congruence.
Qed.

End store_facts.

(** * Facts about [qualifiedSave] *)

Section allocator_facts.
Implicit Types (db : table) (this slug r : ThingSlug).
Implicit Types (faults : nat → option Error).

(** The slug after line 29. *)
Local Abbreviation based this := (set_baseName this (name this)).

(** The function and the run of store calls agree. *)
Lemma qualifiedSave_steps faults db this :
  steps 4 faults 0 db (Saving this)
  = ((qualifiedSave faults db this).1.1,
     Settled (qualifiedSave faults db this).2).
Proof.
  unfold qualifiedSave. cbn [steps step].
  destruct (save (faults 0%nat) db (based this)) as [db1 [doc|error]];
    [reflexivity |].
  destruct (is_duplicate error); [| reflexivity].
  cbn [steps step].
  destruct (latest (faults 1%nat) _) as [[|s0 ?]|e]; [| reflexivity ..].
  cbn [steps step].
  destruct (latest (faults 2%nat) _) as [slugs|e]; [| reflexivity].
  cbn [steps step].
  destruct (save (faults 3%nat) db1 _) as [db2 res]. reflexivity.
Qed.

(** Conflict-free path (lines 29-32). *)
Lemma qualifiedSave_free faults db this :
  faults 0%nat = None → name this ∉ names db →
  qualifiedSave faults db this
  = (db ++ [based this], [Insert (based this)], Fulfilled (based this)).
Proof.
  intros Hf Hfree. unfold qualifiedSave.
  rewrite Hf, save_free by done. reflexivity.
Qed.

(** The base name is the subject's already (lines 36-47). *)
Lemma qualifiedSave_own faults db this s0 rest :
  faults 0%nat = None → name this ∈ names db →
  latest (faults 1%nat)
    (filter_baseName_thingID (name this) (thingID this) db)
  = Fulfilled (s0 :: rest) →
  qualifiedSave faults db this
  = (db, [Insert (based this); QueryOwn (name this) (thingID this)],
     Fulfilled s0).
Proof.
  intros Hf Htaken Hq. unfold qualifiedSave.
  rewrite Hf, save_taken by done. simpl. rewrite Hq. reflexivity.
Qed.

(** Disambiguation (lines 48-69). *)
Lemma qualifiedSave_retry faults db this slugs :
  faults 0%nat = None → name this ∈ names db →
  faults 1%nat = None →
  filter_baseName_thingID (name this) (thingID this) db = [] →
  latest (faults 2%nat) (filter_baseName (name this) db) = Fulfilled slugs →
  qualifiedSave faults db this
  = ((save (faults 3%nat) db
        (qualify (based this) (latestQualifier slugs))).1,
     [Insert (based this); QueryOwn (name this) (thingID this);
      QueryBase (name this);
      Insert (qualify (based this) (latestQualifier slugs))],
     (save (faults 3%nat) db
        (qualify (based this) (latestQualifier slugs))).2).
Proof.
  intros Hf Htaken Hf1 Hown Hq. unfold qualifiedSave.
  rewrite Hf, save_taken by done. simpl. rewrite Hf1, Hown. simpl.
  rewrite Hq. by destruct (save (faults 3%nat) db _).
Qed.

Lemma qualify_name slug q :
  name (qualify slug q) = name slug +:+ "-" +:+ JS.NumberToString q.
Proof. reflexivity. Qed.

Lemma qualify_qualifierPart slug q :
  qualifierPart (qualify slug q) = Some (JS.NumberToString q).
Proof. reflexivity. Qed.

Lemma qualify_baseName slug q : baseName (qualify slug q) = baseName slug.
Proof. reflexivity. Qed.

(** Every run ends, whatever the store does, after at most four calls,
    and a failed run leaves the table alone. *)
Lemma qualifiedSave_calls faults db this :
  (1 ≤ length (qualifiedSave faults db this).1.2 ≤ 4)%nat.
Proof.
  unfold qualifiedSave.
  destruct (save (faults 0%nat) db (based this)) as [db1 [doc|error]];
    [simpl; lia |].
  destruct (is_duplicate error); [| simpl; lia].
  destruct (latest (faults 1%nat) _) as [[|s0 ?]|e]; [| simpl; lia ..].
  destruct (latest (faults 2%nat) _) as [slugs|e]; [| simpl; lia].
  destruct (save (faults 3%nat) db1 _) as [db2 res]. simpl. lia.
Qed.

(** How a run can end. *)
Lemma qualifiedSave_inv faults db this db' calls res :
  qualifiedSave faults db this = (db', calls, res) →
  let slug := based this in
  let q := JS.NumberToString
             (latestQualifier
                (take 1 (orderBy_desc_createdOn
                           (filter_baseName (name this) db)))) in
  (faults 0%nat = None ∧ (name this ∉ names db) ∧
   db' = db ++ [slug] ∧ calls = [Insert slug] ∧ res = Fulfilled slug)
  ∨ (∃ s0 rest,
       collided faults db this ∧
       latest None (filter_baseName_thingID (name this) (thingID this) db)
       = Fulfilled (s0 :: rest) ∧
       db' = db ∧
       calls = [Insert slug; QueryOwn (name this) (thingID this)] ∧
       res = Fulfilled s0)
  ∨ (collided faults db this ∧
     filter_baseName_thingID (name this) (thingID this) db = [] ∧
     (name (qualified this q) ∉ names db) ∧
     db' = db ++ [qualified this q] ∧ calls = retry_calls this q ∧
     res = Fulfilled (qualified this q))
  ∨ (∃ e, res = Failed e ∧ db' = db ∧
          ∀ doc, Insert doc ∈ calls →
                 doc = slug ∨ doc = qualified this q).
Proof.
  intros Hq slug q. unfold qualifiedSave in Hq. fold slug in Hq.
  assert (Hslug : ∀ doc, Insert doc ∈ [Insert slug] →
                         doc = slug ∨ doc = qualified this q).
  { intros doc Hd. apply list_elem_of_singleton in Hd. left. congruence. }
  assert (Hcalls2 : ∀ b t doc, Insert doc ∈ [Insert slug; QueryOwn b t] →
                         doc = slug ∨ doc = qualified this q).
  { intros b t doc Hd. left.
    apply elem_of_cons in Hd as [Hd | Hd]; [congruence |].
    apply list_elem_of_singleton in Hd. discriminate. }
  destruct (save (faults 0%nat) db _) as [db1 [doc|error]] eqn:Hs0.
  { injection Hq as <- <- <-.
    apply save_fulfilled in Hs0 as (Hf0 & Hfree & -> & ->). by left. }
  apply save_failed in Hs0 as [-> Hs0].
  destruct (is_duplicate error) eqn:Hdup; cycle 1.
  { injection Hq as <- <- <-. do 3 right. by exists error. }
  assert (Hcoll : collided faults db this).
  { destruct Hs0 as [Hs0 | (Hs0 & Hin & _)]; [right; by exists error |].
    left. done. }
  destruct (latest (faults 1%nat) _) as [[|s0 rest]|e1] eqn:Hq1.
  - assert (Hown : filter_baseName_thingID (name this) (thingID this) db = []).
    { destruct (faults 1%nat); [discriminate |]. by apply latest_nil. }
    destruct (latest (faults 2%nat) _) as [slugs|e2] eqn:Hq2.
    + assert (Hslugs : JS.NumberToString (latestQualifier slugs) = q).
      { destruct (faults 2%nat); [discriminate |]. simpl in Hq2.
        by injection Hq2 as <-. }
      assert (Hdoc : qualify slug (latestQualifier slugs) = qualified this q).
      { by rewrite <- Hslugs. }
      rewrite Hdoc in Hq.
      destruct (save (faults 3%nat) db _) as [db2 [doc|e3]] eqn:Hs3;
        injection Hq as <- <- <-.
      * apply save_fulfilled in Hs3 as (_ & Hfree & -> & ->).
        right. right. left. done.
      * apply save_failed in Hs3 as [-> _]. do 3 right.
        exists e3. split_and!; [done | done |].
        intros doc Hd. rewrite !elem_of_cons in Hd.
        destruct Hd as [Hd | [Hd | [Hd | [Hd | Hd]]]];
          [left; congruence | discriminate | discriminate
           | right; congruence | by apply elem_of_nil in Hd].
    + injection Hq as <- <- <-. do 3 right. exists e2.
      split_and!; [done | done |].
      intros doc Hd. rewrite !elem_of_cons in Hd.
      destruct Hd as [Hd | [Hd | [Hd | Hd]]];
        [left; congruence | discriminate | discriminate
         | by apply elem_of_nil in Hd].
  - injection Hq as <- <- <-. right. left. exists s0, rest.
    destruct (faults 1%nat); [discriminate |]. done.
  - injection Hq as <- <- <-. do 3 right. exists e1. eauto.
Qed.

End allocator_facts.

(** * Uniqueness of names *)

Section uniqueness.
Implicit Types (db : table) (pool : list stage) (st : stage).

Lemma step_settled_fulfilled fault db st db' r :
  step fault db st = (db', Settled (Fulfilled r)) →
  (∀ res, st ≠ Settled res) →
  (name r ∉ names db) ∧ db' = db ++ [r] ∨ r ∈ db ∧ db' = db.
Proof.
  intros Hs Hst. destruct st as [this|slug|slug|slug|res]; simpl in Hs.
  - destruct (save fault db _) as [db1 [doc|error]] eqn:Hsave.
    + injection Hs as <- <-.
      apply save_fulfilled in Hsave as (_ & Hfree & -> & ->). by left.
    + destruct (is_duplicate error); discriminate.
  - destruct (latest fault _) as [[|s0 rest]|e] eqn:Hq; try discriminate.
    injection Hs as <- <-. right. split; [| done].
    destruct fault; [discriminate |].
    apply latest_cons in Hq as (_ & Hin & _).
    by apply filter_own_elem in Hin as [_ Hin].
  - destruct (latest fault _); discriminate.
  - destruct (save fault db slug) as [db1 res] eqn:Hsave.
    injection Hs as <- ->.
    apply save_fulfilled in Hsave as (_ & Hfree & -> & ->). by left.
  - by destruct (Hst res).
Qed.

Lemma step_NoDup fault db st db' st' :
  step fault db st = (db', st') → NoDup (names db) → NoDup (names db').
Proof.
  intros Hs Hnd. destruct st as [this|slug|slug|slug|res]; simpl in Hs.
  - destruct (save fault db _) as [db1 res] eqn:Hsave.
    assert (db' = db1) as ->.
    { destruct res; [| destruct (is_duplicate _)]; congruence. }
    by eapply save_NoDup.
  - destruct (latest fault _) as [[|]|]; congruence.
  - destruct (latest fault _); congruence.
  - destruct (save fault db slug) as [db1 res] eqn:Hsave.
    injection Hs as <- _. by eapply save_NoDup.
  - congruence.
Qed.

(** No store call of the allocator removes or changes a row. *)
Lemma step_grows fault db st db' st' :
  step fault db st = (db', st') → ∀ r, r ∈ db → r ∈ db'.
Proof.
  intros Hs r Hr. destruct st as [this|slug|slug|slug|res]; simpl in Hs.
  - destruct (save fault db _) as [db1 [doc|error]] eqn:Hsave.
    + injection Hs as <- _.
      apply save_fulfilled in Hsave as (_ & _ & _ & ->).
      apply elem_of_app. by left.
    + apply save_failed in Hsave as [-> _].
      destruct (is_duplicate _); congruence.
  - destruct (latest fault _) as [[|]|]; congruence.
  - destruct (latest fault _); congruence.
  - destruct (save fault db slug) as [db1 [doc|error]] eqn:Hsave;
      injection Hs as <- _.
    + apply save_fulfilled in Hsave as (_ & _ & _ & ->).
      apply elem_of_app. by left.
    + by apply save_failed in Hsave as [-> _].
  - congruence.
Qed.

Lemma sys_step_persisted cfg cfg' :
  sys_step cfg cfg' → persisted cfg → persisted cfg'.
Proof.
  intros Hstep [Hnd Hret].
  destruct Hstep as [db pool this | db pool i st fault db' st' Hi Hs];
    simpl in *.
  - split; [done |]. intros r [Hr | Hr]%elem_of_app; [by apply Hret |].
    apply list_elem_of_singleton in Hr. discriminate.
  - split; [by eapply step_NoDup |].
    intros r [j Hj]%list_elem_of_lookup.
    apply list_lookup_insert_Some in Hj as [(-> & -> & _) | [Hne Hj]].
    + destruct st as [this|slug|slug|slug|res].
      1-4: (eapply step_settled_fulfilled in Hs as [[_ ->] | [? ->]];
            [apply elem_of_app; right; left | done | done]).
      simpl in Hs. injection Hs as <- ->.
      apply Hret. by eapply list_elem_of_lookup_2.
    + eapply step_grows; [exact Hs |].
      apply Hret. by eapply list_elem_of_lookup_2.
Qed.

Lemma reachable_persisted db0 cfg :
  NoDup (names db0) → rtc sys_step (db0, []) cfg → persisted cfg.
Proof.
  intros Hnd Hrtc.
  eapply (rtc_ind_r persisted (db0, [])); [| | exact Hrtc].
  - split; [done |]. intros r Hr. by apply elem_of_nil in Hr.
  - intros y z _ Hstep Hy. by eapply sys_step_persisted.
Qed.

(** A run left alone is one of the interleavings. *)
Lemma steps_sys n faults i db st pool :
  rtc sys_step (db, pool ++ [st])
    ((steps n faults i db st).1, pool ++ [(steps n faults i db st).2]).
Proof.
  revert i db st. induction n as [|n IH]; intros i db st; simpl.
  - apply rtc_refl.
  - destruct (step (faults i) db st) as [db1 st1] eqn:Hs.
    eapply rtc_l; [| apply IH].
    replace (pool ++ [st1]) with (<[length pool := st1]> (pool ++ [st])).
    + eapply sys_store; [| exact Hs].
      by rewrite lookup_app_r, Nat.sub_diag.
    + rewrite insert_app_r_alt, Nat.sub_diag by lia. done.
Qed.

Lemma qualifiedSave_sys faults db this pool :
  rtc sys_step (db, pool)
    ((qualifiedSave faults db this).1.1,
     pool ++ [Settled (qualifiedSave faults db this).2]).
Proof.
  eapply rtc_l; [apply (sys_call db pool this) |].
  pose proof (steps_sys 4 faults 0 db (Saving this) pool) as H.
  by rewrite qualifiedSave_steps in H.
Qed.

End uniqueness.

(** C1.  However calls to [qualifiedSave] arrive and however their store
    calls interleave, the names of the table stay distinct (the primary
    key), every record returned so far is a row of the table, so two
    returned records with one name are one and the same row; and a store
    call that fulfils a run either appended the returned record under a
    name that was free, or returned a row that was there already and left
    the table as it was. *)
Theorem returned_names_unique db0 db pool :
  NoDup (names db0) →
  rtc sys_step (db0, []) (db, pool) →
  NoDup (names db) ∧
  (∀ r, returned pool r → r ∈ db) ∧
  (∀ r1 r2, returned pool r1 → returned pool r2 →
            name r1 = name r2 → r1 = r2) ∧
  (∀ fault st db' r,
     (∀ res, st ≠ Settled res) →
     step fault db st = (db', Settled (Fulfilled r)) →
     (name r ∉ names db) ∧ db' = db ++ [r] ∨ r ∈ db ∧ db' = db).
Proof.
  intros Hnd Hrtc.
  destruct (reachable_persisted _ _ Hnd Hrtc) as [Hnd' Hret]. simpl in *.
  split_and!; [done | done | |].
  - intros r1 r2 H1 H2. apply (NoDup_names_inj db); auto.
  - intros fault st db' r Hst Hs. by eapply step_settled_fulfilled.
Qed.

Lemma returned_names_unique_witness :
  let a := sample "my-review" "my-review" None "subjectA" 1000 in
  let b := sample "my-review-2" "my-review" (Some "2") "subjectB" 2000 in
  let db := [a; b] in
  let pool := [Settled (Fulfilled a); Settled (Fulfilled b)] in
  NoDup (names db) ∧
  (∀ r, returned pool r → r ∈ db) ∧
  (∀ r1 r2, returned pool r1 → returned pool r2 →
            name r1 = name r2 → r1 = r2) ∧
  (∀ fault st db' r,
     (∀ res, st ≠ Settled res) →
     step fault db st = (db', Settled (Fulfilled r)) →
     (name r ∉ names db) ∧ db' = db ++ [r] ∨ r ∈ db ∧ db' = db).
Proof.
  intros a b db pool.
  set (thisA := candidate "my-review" "subjectA" "actorX" 1000).
  set (thisB := candidate "my-review" "subjectB" "actorX" 2000).
  apply (returned_names_unique [] db pool); [apply NoDup_nil_2 |].
  eapply rtc_l; [apply (sys_call [] [] thisA) |].
  eapply rtc_l; [apply (sys_call [] [Saving thisA] thisB) |].
  eapply rtc_l.
  { apply (sys_store [] [Saving thisA; Saving thisB] 0 (Saving thisA) None
             [a] (Settled (Fulfilled a))); reflexivity. }
  eapply rtc_l.
  { apply (sys_store [a] [Settled (Fulfilled a); Saving thisB] 1
             (Saving thisB) None [a]
             (QueryingOwn (set_baseName thisB "my-review"))); reflexivity. }
  eapply rtc_l.
  { apply (sys_store [a] [Settled (Fulfilled a);
                          QueryingOwn (set_baseName thisB "my-review")] 1
             (QueryingOwn (set_baseName thisB "my-review")) None [a]
             (QueryingBase (set_baseName thisB "my-review"))); reflexivity. }
  eapply rtc_l.
  { apply (sys_store [a] [Settled (Fulfilled a);
                          QueryingBase (set_baseName thisB "my-review")] 1
             (QueryingBase (set_baseName thisB "my-review")) None [a]
             (Resaving b)); reflexivity. }
  eapply rtc_l; [| apply rtc_refl].
  apply (sys_store [a] [Settled (Fulfilled a); Resaving b] 1
           (Resaving b) None [a; b] (Settled (Fulfilled b))); reflexivity.
Defined.

(** * The conflict-free path, store failures and the single retry *)

(** C7.  When the desired name is not a name of the table (in particular
    when the table is empty) and the store call goes through, the first
    insert succeeds: the call returns the candidate, with [name] and
    [baseName] the desired name and no [qualifierPart], and the only
    store call made is the insert that appended it. *)
Theorem first_use_identity faults db desiredName subjectID actorID now :
  faults 0%nat = None →
  desiredName ∉ names db →
  let r := {| name := desiredName; baseName := Some desiredName;
              qualifierPart := None; thingID := subjectID;
              createdOn := now; createdBy := actorID |} in
  Allocate faults db desiredName subjectID actorID now
  = (db ++ [r], [Insert r], Fulfilled r).
Proof.
  intros Hf Hfree r. unfold Allocate.
  by rewrite qualifiedSave_free.
Qed.

Lemma first_use_identity_witness :
  Allocate no_fault [] "my-review" "subjectA" "actorX" 1000
  = ([{| name := "my-review"; baseName := Some "my-review";
         qualifierPart := None; thingID := "subjectA";
         createdOn := 1000; createdBy := "actorX" |}],
     [Insert {| name := "my-review"; baseName := Some "my-review";
                qualifierPart := None; thingID := "subjectA";
                createdOn := 1000; createdBy := "actorX" |}],
     Fulfilled {| name := "my-review"; baseName := Some "my-review";
                  qualifierPart := None; thingID := "subjectA";
                  createdOn := 1000; createdBy := "actorX" |}).
Proof.
  apply (first_use_identity no_fault []);
    [reflexivity | apply not_elem_of_nil].
Defined.

(** C9.  When a store call of a run fails with an error that is not the
    primary key's (for the first insert: an error whose name is not
    DuplicatePrimaryKeyError; for a query or for the second insert: any
    error the call fails with), the run rejects with that very error,
    the table is as before and the failed call is the last one made: no
    query and no retry follow. *)
Theorem store_failure_propagates faults db this i e db' calls res :
  qualifiedSave faults db this = (db', calls, res) →
  faults i = Some e →
  (i = 0%nat → is_duplicate e = false) →
  (i < length calls)%nat →
  res = Failed e ∧ db' = db ∧ length calls = S i.
Proof.
  unfold qualifiedSave. intros Hq Hi Hnd Hlen.
  destruct (save (faults 0%nat) db _) as [db1 [doc|error]] eqn:Hs0.
  { injection Hq as <- <- <-.
    apply save_fulfilled in Hs0 as (Hf0 & _).
    destruct i as [|i]; [congruence | simpl in Hlen; lia]. }
  apply save_failed in Hs0 as [-> Hs0].
  destruct (is_duplicate error) eqn:Hdup; cycle 1.
  { injection Hq as <- <- <-.
    destruct i as [|i]; [| simpl in Hlen; lia].
    destruct Hs0 as [Hs0 | (_ & _ & ->)]; [| discriminate]. 
    split_and!; [congruence | done | done]. }
  assert (i ≠ 0%nat) as Hi0.
  { intros ->. destruct Hs0 as [Hs0 | (Hs0 & _)]; [| congruence].
    rewrite Hi in Hs0. injection Hs0 as ->. specialize (Hnd eq_refl).
    congruence. }
  destruct (latest (faults 1%nat) _) as [[|s0 rest]|e1] eqn:Hq1.
  - destruct (latest (faults 2%nat) _) as [slugs|e2] eqn:Hq2.
    + destruct (save (faults 3%nat) db _) as [db2 res3] eqn:Hs3.
      injection Hq as <- <- <-.
      destruct i as [|[|[|[|i]]]]; [done | | | | simpl in Hlen; lia].
      * rewrite Hi in Hq1. discriminate.
      * rewrite Hi in Hq2. discriminate.
      * rewrite Hi in Hs3. injection Hs3 as <- <-. done.
    + injection Hq as <- <- <-. apply latest_failed in Hq2.
      destruct i as [|[|[|i]]]; [done | | | simpl in Hlen; lia].
      * rewrite Hi in Hq1. discriminate.
      * split_and!; [congruence | done | done].
  - injection Hq as <- <- <-.
    destruct i as [|[|i]]; [done | | simpl in Hlen; lia].
    rewrite Hi in Hq1. discriminate.
  - injection Hq as <- <- <-. apply latest_failed in Hq1.
    destruct i as [|[|i]]; [done | | simpl in Hlen; lia].
    split_and!; [congruence | done | done].
Qed.

Lemma store_failure_propagates_witness :
  let faults i := match i with
                  | 1%nat => Some (timeout "QueryOwn")
                  | _ => None
                  end in
  let db := [sample "my-review" "my-review" None "subjectA" 1000] in
  let run := qualifiedSave faults db
               (candidate "my-review" "subjectB" "actorY" 2000) in
  run.2 = Failed (timeout "QueryOwn") ∧ run.1.1 = db ∧
  length run.1.2 = 2%nat.
Proof.
  intros faults db run.
  apply (store_failure_propagates faults db
           (candidate "my-review" "subjectB" "actorY" 2000) 1
           (timeout "QueryOwn"));
    [reflexivity | reflexivity | discriminate | vm_compute; lia].
Defined.

(** C2, as the code has it.  (1) When the first insert collides, the
    subject does not own the base name and the insert of the qualified
    slug collides as well, the run rejects with the primary key's error
    for the qualified name (the ConcurrentAllocationConflict of the
    specification), leaves the table as it was and makes no store call
    after that second insert.
    (2) Two runs for one base name that query the same table compute the
    same qualifier and the same qualified name.  When that name is free,
    whichever of them inserts first is fulfilled and the other one is
    rejected with the primary key's error.  When that name is taken,
    both are rejected with it and the table stays as it is. *)
Theorem retry_conflict :
  (∀ faults db this slugs,
     faults 0%nat = None → name this ∈ names db →
     faults 1%nat = None →
     filter_baseName_thingID (name this) (thingID this) db = [] →
     latest (faults 2%nat) (filter_baseName (name this) db)
     = Fulfilled slugs →
     faults 3%nat = None →
     let slug := set_baseName this (name this) in
     let slug' := qualify slug (latestQualifier slugs) in
     name slug' ∈ names db →
     ∃ res,
       qualifiedSave faults db this
       = (db, [Insert slug; QueryOwn (name this) (thingID this);
               QueryBase (name this); Insert slug'], res) ∧
       ConcurrentAllocationConflict slug' res)
  ∧
  (∀ db slug1 slug2,
     name slug1 = name slug2 →
     let q := latestQualifier
                (take 1 (orderBy_desc_createdOn
                           (filter_baseName (name slug1) db))) in
     let s1 := qualify slug1 q in
     let s2 := qualify slug2 q in
       step None db (QueryingBase slug1) = (db, Resaving s1) ∧
       step None db (QueryingBase slug2) = (db, Resaving s2) ∧
       name s1 = name s2 ∧
       (name s1 ∉ names db →
        (step None db (Resaving s1) = (db ++ [s1], Settled (Fulfilled s1)) ∧
         step None (db ++ [s1]) (Resaving s2)
         = (db ++ [s1],
            Settled (Failed (DuplicatePrimaryKeyError (name s2))))) ∧
        (step None db (Resaving s2) = (db ++ [s2], Settled (Fulfilled s2)) ∧
         step None (db ++ [s2]) (Resaving s1)
         = (db ++ [s2],
            Settled (Failed (DuplicatePrimaryKeyError (name s1)))))) ∧
       (name s1 ∈ names db →
        step None db (Resaving s1)
        = (db, Settled (Failed (DuplicatePrimaryKeyError (name s1)))) ∧
        step None db (Resaving s2)
        = (db, Settled (Failed (DuplicatePrimaryKeyError (name s2)))))).
Proof.
  split.
  - intros faults db this slugs Hf0 Htaken Hf1 Hown Hq Hf3 slug slug' Hcoll.
    exists (Failed (DuplicatePrimaryKeyError (name slug'))).
    split; [| reflexivity].
    rewrite (qualifiedSave_retry faults db this slugs) by done.
    fold slug slug'. rewrite Hf3, save_taken by done. reflexivity.
  - intros db slug1 slug2 Hname q s1 s2.
    assert (Hn : name s1 = name s2).
    { unfold s1, s2. rewrite !qualify_name. by rewrite Hname. }
    split_and!;
      [reflexivity | unfold s2, q; cbn [step latest]; by rewrite Hname
       | exact Hn | |].
    + intros Hfree.
      assert (Hfree2 : name s2 ∉ names db) by (by rewrite <- Hn).
      split; (split; cbn [step];
              [by rewrite save_free | rewrite save_taken; [done |]]).
      * rewrite names_snoc, <- Hn. apply elem_of_app. right. left.
      * rewrite names_snoc, Hn. apply elem_of_app. right. left.
    + intros Htaken.
      assert (Htaken2 : name s2 ∈ names db) by (by rewrite <- Hn).
      split; cbn [step]; by rewrite save_taken.
Qed.

Lemma retry_conflict_witness :
  let db := [sample "my-review" "my-review" None "subjectA" 1000;
             sample "my-review-2" "my-review-2" None "subjectD" 1500] in
  let thisB := candidate "my-review" "subjectB" "actorY" 2000 in
  let db' := [sample "my-review" "my-review" None "subjectA" 1000] in
  let slugB := set_baseName thisB "my-review" in
  let slugC := set_baseName
                 (candidate "my-review" "subjectC" "actorZ" 2001)
                 "my-review" in
  let q := JS.Finite 2 0 in
  (qualifiedSave no_fault db thisB).2
  = Failed (DuplicatePrimaryKeyError "my-review-2")
  ∧ step None db' (QueryingBase slugB) = (db', Resaving (qualify slugB q))
  ∧ step None db' (QueryingBase slugC) = (db', Resaving (qualify slugC q))
  ∧ step None db' (Resaving (qualify slugC q))
    = (db' ++ [qualify slugC q], Settled (Fulfilled (qualify slugC q)))
  ∧ step None (db' ++ [qualify slugC q]) (Resaving (qualify slugB q))
    = (db' ++ [qualify slugC q],
       Settled (Failed (DuplicatePrimaryKeyError "my-review-2")))
  ∧ step None db (Resaving (qualify slugC q))
    = (db, Settled (Failed (DuplicatePrimaryKeyError "my-review-2"))).
Proof.
  intros db thisB db' slugB slugC q. split.
  - destruct (proj1 retry_conflict no_fault db thisB
                [sample "my-review" "my-review" None "subjectA" 1000]
                eq_refl ltac:(by_decide) eq_refl eq_refl eq_refl eq_refl
                ltac:(by_decide))
      as (res & Hrun & Hres).
    rewrite Hrun. exact Hres.
  - destruct (proj2 retry_conflict db' slugB slugC eq_refl)
      as (H1 & H2 & _ & Hrace & _).
    destruct Hrace as [_ [H3 H4]]; [by_decide |].
    destruct (proj2 retry_conflict db slugB slugC eq_refl)
      as (_ & _ & _ & _ & Hboth).
    destruct Hboth as [_ H5]; [by_decide |].
    split; [exact H1 |]. split; [exact H2 |]. split; [exact H3 |].
    split; [exact H4 | exact H5].
Defined.

(** C2 as stated fails when the qualified name is taken: "my-review" is
    subject A's and "my-review-2" was asked for in its own right by
    subject D.  The requests of B and C for "my-review" both get as far
    as the retry against this table, both compute the qualifier 2, and
    both inserts of "my-review-2" are refused, whichever comes first:
    neither request succeeds. *)
Lemma retry_conflict_counterexample :
  let db := [sample "my-review" "my-review" None "subjectA" 1000;
             sample "my-review-2" "my-review-2" None "subjectD" 1500] in
  let thisB := candidate "my-review" "subjectB" "actorY" 2000 in
  let thisC := candidate "my-review" "subjectC" "actorZ" 2001 in
  let sB := qualify (set_baseName thisB "my-review") (JS.Finite 2 0) in
  let sC := qualify (set_baseName thisC "my-review") (JS.Finite 2 0) in
  let conflict := Failed (DuplicatePrimaryKeyError "my-review-2") in
  steps 3 no_fault 0 db (Saving thisB) = (db, Resaving sB) ∧
  steps 3 no_fault 0 db (Saving thisC) = (db, Resaving sC) ∧
  qualifierPart sB = Some "2" ∧ qualifierPart sC = Some "2" ∧
  name sB = "my-review-2" ∧ name sC = "my-review-2" ∧
  step None db (Resaving sB) = (db, Settled conflict) ∧
  step None db (Resaving sC) = (db, Settled conflict) ∧
  rtc sys_step (db, [Saving thisB; Saving thisC])
               (db, [Resaving sB; Resaving sC]) ∧
  rtc sys_step (db, [Resaving sB; Resaving sC])
               (db, [Settled conflict; Settled conflict]) ∧
  (qualifiedSave no_fault db thisB).2 = conflict ∧
  (qualifiedSave no_fault db thisC).2 = conflict.
Proof.
  intros db thisB thisC sB sC conflict.
  assert (Hstep : ∀ pool i st st',
            pool !! i = Some st → step None db st = (db, st') →
            sys_step (db, pool) (db, <[i := st']> pool)).
  { intros pool i st st' Hi Hst. by eapply sys_store. }
  split_and!; try (vm_compute; reflexivity).
  - do 3 (eapply rtc_l;
          [eapply Hstep with (i := 0%nat); reflexivity |];
          cbn [list_insert]).
    do 3 (eapply rtc_l;
          [eapply Hstep with (i := 1%nat); reflexivity |];
          cbn [list_insert]).
    apply rtc_refl.
  - eapply rtc_l; [eapply Hstep with (i := 0%nat); reflexivity |].
    cbn [list_insert].
    eapply rtc_l; [eapply Hstep with (i := 1%nat); reflexivity |].
    cbn [list_insert]. apply rtc_refl.
Qed.

(** * The qualifier of the retry *)

Lemma disambiguates_run faults db this slugs :
  disambiguates faults db this slugs →
  let q := JS.NumberToString (latestQualifier slugs) in
  qualifiedSave faults db this
  = ((save (faults 3%nat) db (qualified this q)).1, retry_calls this q,
     (save (faults 3%nat) db (qualified this q)).2).
Proof.
  intros (Hf0 & Htaken & Hf1 & Hown & Hq) q.
  by rewrite (qualifiedSave_retry faults db this slugs).
Qed.

Lemma disambiguates_latest faults db this s0 rest :
  disambiguates faults db this (s0 :: rest) →
  s0 ∈ db ∧ baseName s0 = Some (name this) ∧
  ∀ x, x ∈ db → baseName x = Some (name this) →
       createdOn x ≤ createdOn s0.
Proof.
  intros (_ & _ & _ & _ & Hq).
  destruct (faults 2%nat); [discriminate |].
  apply latest_cons in Hq as (_ & Hin & Hmax).
  apply filter_base_elem in Hin as [Hb Hin].
  split_and!; [done | done |].
  intros x Hx Hbx. apply Hmax. by apply filter_base_elem.
Qed.



(** C10.  On the retry, when the most recent row with the base name has a
    [qualifierPart] that [Number] maps to anything but NaN, the qualifier
    is [String(Number(qualifierPart) + 1)], whatever number that is; so
    the empty string and "0" give "1", "-3" gives "-2" and "2.5" gives
    "3.5". *)
Theorem numeric_qualifier_unchecked faults db this s0 rest q :
  disambiguates faults db this (s0 :: rest) →
  qualifierPart s0 = Some q →
  JS.isNaN (JS.StringToNumber q) = false →
  let next :=
    JS.NumberToString (JS.add (JS.StringToNumber q) (JS.Finite 1 0)) in
  qualifiedSave faults db this
  = ((save (faults 3%nat) db (qualified this next)).1,
     retry_calls this next,
     (save (faults 3%nat) db (qualified this next)).2)
  ∧ (q = "" → next = "1") ∧ (q = "0" → next = "1")
  ∧ (q = "-3" → next = "-2") ∧ (q = "2.5" → next = "3.5").
Proof.
  intros Hd Hq Hnum next.
  split; [| by split_and!; intros ->].
  rewrite (disambiguates_run faults db this (s0 :: rest) Hd). cbv zeta.
  assert (Hn : JS.NumberToString (latestQualifier (s0 :: rest)) = next).
  { unfold latestQualifier. rewrite Hq. simpl JS.Number. by rewrite Hnum. }
  by rewrite Hn.
Qed.

Lemma numeric_qualifier_unchecked_witness :
  let db := [sample "my-review" "my-review" None "subjectA" 1000;
             sample "my-review-2.5" "my-review" (Some "2.5") "subjectD"
               1500] in
  let this := candidate "my-review" "subjectB" "actorY" 2000 in
  qualifiedSave no_fault db this
  = (db ++ [qualified this "3.5"], retry_calls this "3.5",
     Fulfilled (qualified this "3.5")).
Proof.
  intros db this.
  refine (proj1 (numeric_qualifier_unchecked no_fault db this
            (sample "my-review-2.5" "my-review" (Some "2.5") "subjectD" 1500)
            [] "2.5" _ eq_refl eq_refl)).
  split_and!; [reflexivity | by_decide | reflexivity ..].
Defined.

(** The anomalous qualifiers of C10 are numbers for [Number], and an
    empty [qualifierPart] makes the allocator issue the qualifier "1". *)
Lemma anomalous_qualifiers :
  Forall (λ q, JS.isNaN (JS.StringToNumber q) = false)
         [""; "0"; "-3"; "2.5"]
  ∧ (let db := [sample "my-review" "my-review" (Some "") "subjectA" 1000] in
     let this := candidate "my-review" "subjectB" "actorY" 2000 in
     qualifiedSave no_fault db this
     = (db ++ [qualified this "1"], retry_calls this "1",
        Fulfilled (qualified this "1"))).
Proof. split; [by repeat constructor | reflexivity]. Qed.

(** * One more than the latest qualifier *)

(** For an integer in JavaScript's safe range, [String(x + 1)] is the
    numeral of the next integer. *)
Lemma next_qualifier_string x n :
  JS.integer_value x = Some n → Z.abs n < 2 ^ 53 →
  JS.NumberToString (JS.add x (JS.Finite 1 0)) = JS.dec (n + 1).
Proof.
  intros Hx Hn. destruct (Z.eq_dec n (2 ^ 53 - 1)) as [Hmax | Hmax].
  - apply JSFacts.NumberToString_integer.
    + replace (n + 1) with (2 ^ 53) by lia.
      apply (JSFacts.add_one_integer_max x n); auto.
    + lia.
  - apply JSFacts.NumberToString_integer.
    + apply JSFacts.add_one_integer; [done | lia].
    + lia.
Qed.

Lemma latestQualifier_integer s0 rest n :
  JS.integer_value (JS.Number (qualifierPart s0)) = Some n →
  latestQualifier (s0 :: rest)
  = JS.add (JS.Number (qualifierPart s0)) (JS.Finite 1 0).
Proof.
  intros Hn. unfold latestQualifier.
  by destruct (JS.Number (qualifierPart s0)).
Qed.

(** C5, as the code has it.  (1) When the first insert collides, the
    subject has no row with the base name and the most recently created
    row with that base name has a [qualifierPart] that [Number] reads as
    an integer [n] of magnitude below [2^53], the retry inserts the slug
    named [baseName + "-" + (n + 1)] with [qualifierPart] the numeral of
    [n + 1], and returns it when that name is free.  (2) On a table
    holding only a row named "my-review" without [qualifierPart], a
    request for "my-review" by another subject returns the record named
    "my-review-2" with [baseName] "my-review" and [qualifierPart] "2". *)
Theorem next_qualifier :
  (∀ faults db this s0 rest n,
     disambiguates faults db this (s0 :: rest) →
     JS.integer_value (JS.Number (qualifierPart s0)) = Some n →
     Z.abs n < 2 ^ 53 →
     let slug' := qualified this (JS.dec (n + 1)) in
     (s0 ∈ db ∧ baseName s0 = Some (name this) ∧
      ∀ x, x ∈ db → baseName x = Some (name this) →
           createdOn x ≤ createdOn s0) ∧
     qualifiedSave faults db this
     = ((save (faults 3%nat) db slug').1, retry_calls this (JS.dec (n + 1)),
        (save (faults 3%nat) db slug').2) ∧
     (faults 3%nat = None → name slug' ∉ names db →
      qualifiedSave faults db this
      = (db ++ [slug'], retry_calls this (JS.dec (n + 1)), Fulfilled slug')))
  ∧
  (∀ r subjectB actorY now,
     name r = "my-review" → qualifierPart r = None →
     thingID r ≠ subjectB →
     let this := candidate "my-review" subjectB actorY now in
     Allocate no_fault [r] "my-review" subjectB actorY now
     = ([r; {| name := "my-review-2"; baseName := Some "my-review";
               qualifierPart := Some "2"; thingID := subjectB;
               createdOn := now; createdBy := actorY |}],
        retry_calls this "2",
        Fulfilled {| name := "my-review-2"; baseName := Some "my-review";
                     qualifierPart := Some "2"; thingID := subjectB;
                     createdOn := now; createdBy := actorY |})).
Proof.
  split.
  - intros faults db this s0 rest n Hd Hint Hsafe slug'.
    assert (Hrun : qualifiedSave faults db this
      = ((save (faults 3%nat) db slug').1,
         retry_calls this (JS.dec (n + 1)),
         (save (faults 3%nat) db slug').2)).
    { rewrite (disambiguates_run faults db this (s0 :: rest) Hd). cbv zeta.
      rewrite (latestQualifier_integer s0 rest n Hint).
      by rewrite (next_qualifier_string _ n Hint Hsafe). }
    split; [by eapply disambiguates_latest |]. split; [exact Hrun |].
    intros Hf3 Hfree. rewrite Hrun, Hf3.
    by rewrite save_free.
  - intros r subjectB actorY now Hname Hq Hsubj this.
    assert (Hd : ∃ slugs, disambiguates no_fault [r] this slugs ∧
                          JS.NumberToString (latestQualifier slugs) = "2").
    { exists (take 1 (orderBy_desc_createdOn
                        (filter_baseName "my-review" [r]))).
      split.
      - split_and!; [done | | done | | done].
        + simpl. rewrite Hname. left.
        + unfold filter_baseName_thingID. simpl.
          rewrite filter_cons_False; [done |]. intros [_ ?]. done.
      - unfold filter_baseName. rewrite filter_cons, filter_nil.
        case_decide; [| reflexivity]. simpl. by rewrite Hq. }
    destruct Hd as (slugs & Hd & Hq2).
    unfold Allocate. fold this.
    rewrite (disambiguates_run no_fault [r] this slugs Hd). cbv zeta.
    rewrite Hq2. unfold no_fault. rewrite save_free; [reflexivity |].
    simpl. rewrite Hname. by_decide.
Qed.

Lemma next_qualifier_witness :
  let a := sample "my-review" "my-review" None "subjectA" 1000 in
  let b := sample "my-review-2" "my-review" (Some "2") "subjectB" 2000 in
  let this := candidate "my-review" "subjectC" "actorZ" 3000 in
  qualifiedSave no_fault [a; b] this
  = ([a; b; qualified this "3"], retry_calls this "3",
     Fulfilled (qualified this "3"))
  ∧ Allocate no_fault [a] "my-review" "subjectB" "actorY" 2000
    = ([a; qualified (candidate "my-review" "subjectB" "actorY" 2000) "2"],
       retry_calls (candidate "my-review" "subjectB" "actorY" 2000) "2",
       Fulfilled
         (qualified (candidate "my-review" "subjectB" "actorY" 2000) "2")).
Proof.
  intros a b this. split.
  - refine (proj2 (proj2 (proj1 next_qualifier no_fault [a; b] this b [] 2
                            _ eq_refl _)) eq_refl _).
    + split_and!; [reflexivity | by_decide | reflexivity ..].
    + reflexivity.
    + by_decide.
  - refine (proj2 next_qualifier a "subjectB" "actorY" 2000
              eq_refl eq_refl _).
    discriminate.
Defined.

(** C5 as stated fails beyond the safe integers: the most recent row
    carries the integer qualifier 9007199254740993, which [Number] reads
    as [2^53]; adding one rounds back to [2^53], and the record returned
    has qualifier 9007199254740992, not one more than the latest. *)
Lemma next_qualifier_counterexample :
  let latest_row :=
    sample "my-review-9007199254740993" "my-review"
      (Some "9007199254740993") "subjectB" 2000 in
  let db := [sample "my-review" "my-review" None "subjectA" 1000;
             latest_row] in
  let this := candidate "my-review" "subjectC" "actorZ" 3000 in
  disambiguates no_fault db this [latest_row] ∧
  JS.integer_value (JS.StringToNumber "9007199254740993")
  = Some 9007199254740992 ∧
  Allocate no_fault db "my-review" "subjectC" "actorZ" 3000
  = (db ++ [qualified this "9007199254740992"],
     retry_calls this "9007199254740992",
     Fulfilled (qualified this "9007199254740992")) ∧
  "9007199254740992" ≠ JS.dec (9007199254740993 + 1) ∧
  "9007199254740992" ≠ JS.dec (9007199254740992 + 1).
Proof.
  intros latest_row db this.
  split; [split_and!; [reflexivity | by_decide | reflexivity ..] |].
  split; [reflexivity |]. split; [reflexivity |].
  split; discriminate.
Qed.

(** * The structural invariant *)

Lemma safely_structured_structured r : safely_structured r → structured r.
Proof.
  unfold safely_structured, structured.
  destruct (baseName r), (qualifierPart r) as [q|]; try done.
  intros [Hn Hq]. split; [done |].
  destruct (JS.integer_value (JS.StringToNumber q)); [lia | done].
Qed.

(** One more than a safe qualifier is a safe qualifier again: at [2^53]
    the sum sticks. *)
Lemma next_of_safe x n :
  JS.integer_value x = Some n → 1 ≤ n ≤ 2 ^ 53 →
  ∃ n', JS.NumberToString (JS.add x (JS.Finite 1 0)) = JS.dec n' ∧
        2 ≤ n' ≤ 2 ^ 53 ∧ n' = Z.min (n + 1) (2 ^ 53).
Proof.
  intros Hx Hn. destruct (Z.eq_dec n (2 ^ 53)) as [-> | Hne].
  - exists (2 ^ 53). split; [| lia].
    apply JSFacts.NumberToString_integer; [| lia].
    apply (JSFacts.add_one_integer_max x (2 ^ 53)); auto.
  - exists (n + 1). split; [| lia].
    apply next_qualifier_string; [done | lia].
Qed.

Lemma qualified_safely_structured this n :
  2 ≤ n ≤ 2 ^ 53 → safely_structured (qualified this (JS.dec n)).
Proof.
  intros Hn. unfold safely_structured. simpl. split; [done |].
  change (JS.StringToNumber (JS.dec n)) with (JS.Number (Some (JS.dec n))).
  rewrite JSFacts.integer_value_Number_dec by lia. done.
Qed.

Lemma latest_row b db s0 rest :
  orderBy_desc_createdOn (filter_baseName b db) = s0 :: rest →
  s0 ∈ db ∧ baseName s0 = Some b ∧
  ∀ x, x ∈ db → baseName x = Some b → createdOn x ≤ createdOn s0.
Proof.
  intros Ho. apply orderBy_head in Ho as [Hin Hmax].
  apply filter_base_elem in Hin as [Hb Hin]. split_and!; [done | done |].
  intros x Hx Hbx. apply Hmax. by apply filter_base_elem.
Qed.

(** In a table of safely structured rows the retry's qualifier is the
    numeral of an integer between 2 and [2^53]. *)
Lemma safe_next_qualifier b db :
  (∀ r, r ∈ db → safely_structured r) →
  ∃ n, JS.NumberToString
         (latestQualifier
            (take 1 (orderBy_desc_createdOn (filter_baseName b db))))
       = JS.dec n ∧ 2 ≤ n ≤ 2 ^ 53.
Proof.
  intros Hdb.
  destruct (orderBy_desc_createdOn (filter_baseName b db)) as [|s0 rest]
    eqn:Ho; [exists 2; split; [reflexivity | lia] |].
  apply latest_row in Ho as (Hin & _ & _). specialize (Hdb s0 Hin).
  simpl take. unfold latestQualifier, safely_structured in *.
  destruct (baseName s0); [| done].
  destruct (qualifierPart s0) as [q|];
    [| exists 2; split; [reflexivity | lia]].
  destruct Hdb as [_ Hq]. simpl JS.Number.
  destruct (JS.integer_value (JS.StringToNumber q)) as [n|] eqn:Hint;
    [| done].
  destruct (next_of_safe _ n Hint ltac:(lia)) as (n' & Hs & Hn' & _).
  exists n'. split; [| done].
  destruct (JS.StringToNumber q); try discriminate. exact Hs.
Qed.

(** C8, as the code has it.  When every row of the table satisfies the
    structural invariant with a qualifier of at most [2^53], so does
    every row after a call of Allocate and so does the record the call
    returns; and every document the call inserts, on the first attempt
    or on the retry, has the requested name as its [baseName]. *)
Theorem structure_preserved faults db desiredName subjectID actorID now
    db' calls res :
  Allocate faults db desiredName subjectID actorID now = (db', calls, res) →
  (∀ r, r ∈ db → safely_structured r) →
  (∀ r, r ∈ db' → safely_structured r ∧ structured r) ∧
  (∀ r, res = Fulfilled r → safely_structured r ∧ structured r) ∧
  (∀ doc, Insert doc ∈ calls → baseName doc = Some desiredName).
Proof.
  unfold Allocate. intros Hrun Hdb.
  set (this := candidate desiredName subjectID actorID now) in *.
  assert (Hboth : ∀ r, safely_structured r →
                       safely_structured r ∧ structured r).
  { intros r Hr. split; [done | by apply safely_structured_structured]. }
  assert (Hfirst : safely_structured (set_baseName this (name this)))
    by reflexivity.
  destruct (safe_next_qualifier desiredName db Hdb) as (n & Hq & Hn).
  pose proof (qualified_safely_structured this n Hn) as Hretry.
  apply qualifiedSave_inv in Hrun. cbv zeta in Hrun.
  change (name this) with desiredName in Hrun. rewrite Hq in Hrun.
  destruct Hrun as [(_ & _ & -> & -> & ->)
                   | [(s0 & rest & _ & Hown & -> & -> & ->)
                   | [(_ & _ & _ & -> & -> & ->)
                   | (e & -> & -> & Hcalls)]]].
  - split_and!.
    + intros r [Hr | ->%list_elem_of_singleton]%elem_of_app; auto.
    + intros r [= <-]. auto.
    + intros doc [= ->]%list_elem_of_singleton. done.
  - apply latest_cons in Hown as (_ & [_ Hin]%filter_own_elem & _).
    split_and!.
    + auto.
    + intros r [= <-]. auto.
    + intros doc Hd. rewrite !elem_of_cons in Hd.
      destruct Hd as [[= ->] | [Hd | Hd]];
        [done | discriminate | by apply elem_of_nil in Hd].
  - split_and!.
    + intros r [Hr | ->%list_elem_of_singleton]%elem_of_app; auto.
    + intros r [= <-]. auto.
    + intros doc Hd. unfold retry_calls in Hd. rewrite !elem_of_cons in Hd.
      destruct Hd as [[= ->] | [Hd | [Hd | [[= ->] | Hd]]]];
        [done | discriminate | discriminate | done
         | by apply elem_of_nil in Hd].
  - split_and!; [auto | discriminate |].
    intros doc Hd. by destruct (Hcalls doc Hd) as [-> | ->].
Qed.

Lemma structure_preserved_witness :
  let a := sample "my-review" "my-review" None "subjectA" 1000 in
  let b := sample "my-review-2" "my-review" (Some "2") "subjectB" 2000 in
  let this := candidate "my-review" "subjectC" "actorZ" 3000 in
  (∀ r, r ∈ [a; b; qualified this "3"] →
        safely_structured r ∧ structured r) ∧
  (∀ r, Fulfilled (qualified this "3") = Fulfilled r →
        safely_structured r ∧ structured r) ∧
  (∀ doc, Insert doc ∈ retry_calls this "3" →
          baseName doc = Some "my-review").
Proof.
  intros a b this.
  apply (structure_preserved no_fault [a; b] "my-review" "subjectC"
           "actorZ" 3000); [reflexivity |].
  intros r Hr. rewrite !elem_of_cons in Hr.
  destruct Hr as [-> | [-> | Hr]].
  - reflexivity.
  - split; [reflexivity |].
    replace (JS.integer_value (JS.StringToNumber "2")) with (Some 2)
      by (vm_compute; reflexivity).
    lia.
  - by apply elem_of_nil in Hr.
Defined.

(** C8 as stated fails on a table with an anomalous row: after a row
    whose [qualifierPart] is the empty string the allocator creates a
    record with qualifier "1". *)
Lemma structure_counterexample :
  let db := [sample "my-review" "my-review" (Some "") "subjectA" 1000] in
  let this := candidate "my-review" "subjectB" "actorY" 2000 in
  Allocate no_fault db "my-review" "subjectB" "actorY" 2000
  = (db ++ [qualified this "1"], retry_calls this "1",
     Fulfilled (qualified this "1")) ∧
  ¬ structured (qualified this "1").
Proof.
  intros db this. split; [reflexivity |].
  unfold structured. simpl. intros [_ H]. vm_compute in H. by apply H.
Qed.

(** * Qualifiers over time *)




Lemma names_mono db doc x : x ∈ names db → x ∈ names (db ++ [doc]).
Proof. intros H. rewrite names_snoc. apply elem_of_app. by left. Qed.

Lemma names_last db doc : name doc ∈ names (db ++ [doc]).
Proof. rewrite names_snoc. apply elem_of_app. right. left. Qed.

Lemma genuine_collided faults db this :
  genuine faults → collided faults db this → name this ∈ names db.
Proof.
  intros Hg [[_ Hin] | (e & He & Hdup)]; [done |].
  specialize (Hg _ _ He). congruence.
Qed.






(** * Asking again *)

Lemma latest_newest sel x :
  x ∈ sel → (∀ y, y ∈ sel → y = x ∨ createdOn y < createdOn x) →
  latest None sel = Fulfilled [x].
Proof.
  intros Hx Hnew. unfold latest. f_equal.
  destruct (orderBy_desc_createdOn sel) as [|s0 rest] eqn:Ho.
  - apply (proj1 (orderBy_nil _)) in Ho. subst. by apply elem_of_nil in Hx.
  - simpl. rewrite take_0.
    apply orderBy_head in Ho as [Hin Hmax].
    destruct (Hnew s0 Hin) as [-> | Hlt]; [done |].
    specialize (Hmax x Hx). lia.
Qed.

Lemma filter_own_snoc b t db r :
  baseName r = Some b → thingID r = t →
  filter_baseName_thingID b t (db ++ [r])
  = filter_baseName_thingID b t db ++ [r].
Proof.
  intros Hb Ht. unfold filter_baseName_thingID.
  rewrite filter_app. f_equal. by rewrite filter_cons_True.
Qed.

(** When the requested name is taken and the subject has a row with
    that base name, the call returns the most recent such row as it is,
    makes no insert but the refused one and leaves the table as it
    was. *)
Lemma own_record_returned faults db desiredName subjectID actorID now :
  faults 0%nat = None → faults 1%nat = None →
  desiredName ∈ names db →
  (∃ r, r ∈ db ∧ baseName r = Some desiredName ∧ thingID r = subjectID) →
  ∃ s0, s0 ∈ db ∧ baseName s0 = Some desiredName ∧
        thingID s0 = subjectID ∧
        (∀ x, x ∈ db → baseName x = Some desiredName →
              thingID x = subjectID → createdOn x ≤ createdOn s0) ∧
        Allocate faults db desiredName subjectID actorID now
        = (db,
           [Insert (set_baseName
                      (candidate desiredName subjectID actorID now)
                      desiredName);
            QueryOwn desiredName subjectID],
           Fulfilled s0).
Proof.
  intros Hf0 Hf1 Htaken (r & Hr & Hb & Ht).
  set (this := candidate desiredName subjectID actorID now).
  destruct (latest None
              (filter_baseName_thingID desiredName subjectID db))
    as [[|s0 rest]|e] eqn:Hq.
  - apply latest_nil in Hq.
    assert (r ∈ filter_baseName_thingID desiredName subjectID db) as Hin
      by (by apply filter_own_elem).
    rewrite Hq in Hin. by apply elem_of_nil in Hin.
  - pose proof Hq as Hq'.
    apply latest_cons in Hq' as (_ & [[Hb0 Ht0] Hin]%filter_own_elem & Hmax).
    exists s0. split_and!; [done | done | done | |].
    + intros x Hx Hbx Htx. apply Hmax. by apply filter_own_elem.
    + unfold Allocate. fold this.
      apply (qualifiedSave_own faults db this s0 rest); [done | done |].
      by rewrite Hf1.
  - discriminate.
Qed.

(** C4, as the code has it.  (1) When the requested name is taken and
    the subject has a row with that base name, the call returns the most
    recent such row as it is, makes no insert but the refused one and
    leaves the table as it was.  (2) When a call of Allocate has returned
    a record, the same request made again, by any actor at any time,
    creates no row and returns a row of the subject with that base name
    that is no older than the record of the first call.  It is that very
    record when the first call found the name taken, or was made at a
    time later than every row that the subject had with that base
    name. *)
Theorem same_owner_idempotent :
  (∀ faults db desiredName subjectID actorID now,
     faults 0%nat = None → faults 1%nat = None →
     desiredName ∈ names db →
     (∃ r, r ∈ db ∧ baseName r = Some desiredName ∧
           thingID r = subjectID) →
     ∃ s0, s0 ∈ db ∧ baseName s0 = Some desiredName ∧
           thingID s0 = subjectID ∧
           (∀ x, x ∈ db → baseName x = Some desiredName →
                 thingID x = subjectID → createdOn x ≤ createdOn s0) ∧
           Allocate faults db desiredName subjectID actorID now
           = (db,
              [Insert (set_baseName
                         (candidate desiredName subjectID actorID now)
                         desiredName);
               QueryOwn desiredName subjectID],
              Fulfilled s0))
  ∧
  (∀ faults db desiredName subjectID actorID now db1 calls r1,
     genuine faults →
     Allocate faults db desiredName subjectID actorID now
     = (db1, calls, Fulfilled r1) →
     ∀ actorID' now',
     ∃ r2,
       Allocate no_fault db1 desiredName subjectID actorID' now'
       = (db1,
          [Insert (set_baseName
                     (candidate desiredName subjectID actorID' now')
                     desiredName);
           QueryOwn desiredName subjectID],
          Fulfilled r2) ∧
       r2 ∈ db1 ∧ baseName r2 = Some desiredName ∧
       thingID r2 = subjectID ∧
       createdOn r1 ≤ createdOn r2 ∧
       (desiredName ∈ names db ∨
        (∀ r, r ∈ db → baseName r = Some desiredName →
              thingID r = subjectID → createdOn r < now) →
        r2 = r1)).
Proof.
  split; [apply own_record_returned |].
  intros faults db desiredName subjectID actorID now db1 calls r1
         Hgen Hrun actorID' now'.
  set (calls' := [Insert (set_baseName
                            (candidate desiredName subjectID actorID' now')
                            desiredName);
                  QueryOwn desiredName subjectID]).
  assert (Hfirst :
    desiredName ∈ names db1 ∧ r1 ∈ db1 ∧
    baseName r1 = Some desiredName ∧ thingID r1 = subjectID ∧
    (desiredName ∈ names db ∨
     (∀ r, r ∈ db → baseName r = Some desiredName →
           thingID r = subjectID → createdOn r < now) →
     Allocate no_fault db1 desiredName subjectID actorID' now'
     = (db1, calls', Fulfilled r1))).
  { unfold Allocate in *.
    set (this := candidate desiredName subjectID actorID now) in *.
    set (this' := candidate desiredName subjectID actorID' now').
    apply qualifiedSave_inv in Hrun. cbv zeta in Hrun.
    destruct Hrun as [(_ & Hfree & -> & -> & [= ->])
                     | [(s0 & rest & Hcoll & Hown & -> & -> & [= ->])
                     | [(Hcoll & Hown & Hfree & -> & -> & [= ->])
                     | (e & [=] & _)]]].
    - split_and!;
        [apply (names_last db (set_baseName this (name this)))
        | apply elem_of_app; right; left | done | done |].
      intros [Htaken | Hclock]; [done |].
      apply (qualifiedSave_own no_fault _ this' _ []);
        [done | apply (names_last db (set_baseName this (name this))) |].
      change (name this') with desiredName.
      change (thingID this') with subjectID.
      rewrite filter_own_snoc by done.
      apply latest_newest; [apply elem_of_app; right; left |].
      intros y [[[Hb Ht] Hy]%filter_own_elem
               | ->%list_elem_of_singleton]%elem_of_app;
        [right; by apply Hclock | by left].
    - pose proof Hown as Hown'.
      apply latest_cons in Hown' as (_ & [[Hb Ht] Hin]%filter_own_elem & _).
      split_and!;
        [by eapply (genuine_collided faults db this) | done | done | done |].
      intros _.
      apply (qualifiedSave_own no_fault _ this' _ rest);
        [done | by eapply (genuine_collided faults db this) | done].
    - split_and!;
        [apply names_mono; by eapply (genuine_collided faults db this)
        | apply elem_of_app; right; left | done | done |].
      intros _.
      apply (qualifiedSave_own no_fault _ this' _ []);
        [done | apply names_mono;
                by eapply (genuine_collided faults db this) |].
      change (name this') with desiredName.
      change (thingID this') with subjectID.
      change (name this) with desiredName in Hown.
      change (thingID this) with subjectID in Hown.
      rewrite filter_own_snoc by done. rewrite Hown. reflexivity. }
  destruct Hfirst as (Htaken1 & Hin1 & Hb1 & Ht1 & Hsame).
  destruct (own_record_returned no_fault db1 desiredName subjectID
              actorID' now' eq_refl eq_refl Htaken1
              (ex_intro _ r1 (conj Hin1 (conj Hb1 Ht1))))
    as (r2 & Hin2 & Hb2 & Ht2 & Hmax & Hrun2).
  exists r2. split_and!; [exact Hrun2 | done | done | done | by apply Hmax |].
  intros Hc. specialize (Hsame Hc). rewrite Hrun2 in Hsame.
  by injection Hsame.
Qed.

Lemma same_owner_idempotent_witness :
  let a := sample "my-review" "my-review" None "subjectA" 1000 in
  let b := qualified (candidate "my-review" "subjectB" "actorY" 2000) "2" in
  (∃ s0, s0 ∈ [a; b] ∧ baseName s0 = Some "my-review" ∧
         thingID s0 = "subjectB" ∧
         (∀ x, x ∈ [a; b] → baseName x = Some "my-review" →
               thingID x = "subjectB" → createdOn x ≤ createdOn s0) ∧
         Allocate no_fault [a; b] "my-review" "subjectB" "actorY" 2500
         = ([a; b],
            [Insert (set_baseName
                       (candidate "my-review" "subjectB" "actorY" 2500)
                       "my-review");
             QueryOwn "my-review" "subjectB"],
            Fulfilled s0))
  ∧ Allocate no_fault [a; b] "my-review" "subjectB" "actorW" 3000
    = ([a; b],
       [Insert (set_baseName
                  (candidate "my-review" "subjectB" "actorW" 3000)
                  "my-review");
        QueryOwn "my-review" "subjectB"],
       Fulfilled b).
Proof.
  intros a b. split.
  - apply (proj1 same_owner_idempotent no_fault [a; b]);
      [reflexivity | reflexivity | by_decide |].
    exists b. split_and!; [by_decide | reflexivity ..].
  - destruct (proj2 same_owner_idempotent no_fault [a] "my-review"
                "subjectB" "actorY" 2000 [a; b]
                (retry_calls
                   (candidate "my-review" "subjectB" "actorY" 2000) "2") b
                ltac:(intros i e; discriminate) eq_refl "actorW" 3000)
      as (r2 & Hrun & _ & _ & _ & _ & Hsame).
    rewrite Hrun, Hsame; [reflexivity |].
    right. intros r ->%list_elem_of_singleton _ Ht. discriminate Ht.
Defined.

(** C4 as stated fails once the record that held the plain name is gone:
    subject A owns "my-review-2" (base name "my-review"); with subject
    B's record "my-review" removed, A's request for "my-review" inserts
    and returns a new row instead of the one A has. *)
Lemma same_owner_counterexample :
  let run1 := Allocate no_fault [] "my-review" "subjectB" "actorY" 1000 in
  let run2 := Allocate no_fault run1.1.1 "my-review" "subjectA" "actorX"
                2000 in
  let db := delete "my-review" run2.1.1 in
  let owned := qualified (candidate "my-review" "subjectA" "actorX" 2000)
                 "2" in
  let fresh := set_baseName (candidate "my-review" "subjectA" "actorX" 3000)
                 "my-review" in
  run2.2 = Fulfilled owned ∧ db = [owned] ∧
  baseName owned = Some "my-review" ∧ thingID owned = "subjectA" ∧
  Allocate no_fault db "my-review" "subjectA" "actorX" 3000
  = ([owned; fresh], [Insert fresh], Fulfilled fresh) ∧
  fresh ≠ owned.
Proof.
  intros run1 run2 db owned fresh.
  split_and!; [reflexivity .. | discriminate].
Qed.

(** The proviso on the dates in (2) is needed.  Subject A has the row
    "my-review-2" of the base name "my-review", dated 2000, and the name
    "my-review" is free.  A's request dated 1999 inserts "my-review";
    the same request made again finds the name taken and is answered
    with the more recent row of A, "my-review-2".  No row is created,
    but the two calls return different records. *)
Lemma same_owner_dates_needed :
  let owned := sample "my-review-2" "my-review" (Some "2") "subjectA" 2000 in
  let fresh := set_baseName (candidate "my-review" "subjectA" "actorX" 1999)
                 "my-review" in
  let run1 := Allocate no_fault [owned] "my-review" "subjectA" "actorX"
                1999 in
  let run2 := Allocate no_fault run1.1.1 "my-review" "subjectA" "actorX"
                1999 in
  run1 = ([owned; fresh], [Insert fresh], Fulfilled fresh) ∧
  run2 = ([owned; fresh], [Insert fresh; QueryOwn "my-review" "subjectA"],
          Fulfilled owned) ∧
  fresh ≠ owned.
Proof.
  intros owned fresh run1 run2.
  split_and!; [reflexivity .. | discriminate].
Qed.

(** * More about [qualifiedSave] *)

(** X1.  A run that fails leaves the table as it was.  A run that is
    fulfilled returns a record of the thing it was called for, with the
    requested name as base name; either that record was a row already
    and the table is unchanged, or it is the one row the run appended,
    dated and signed as the slug it was called on and named by the
    requested name or by that name, a hyphen and its qualifier. *)
Theorem run_effect faults db this db' calls res :
  qualifiedSave faults db this = (db', calls, res) →
  match res with
  | Failed _ => db' = db
  | Fulfilled r =>
      thingID r = thingID this ∧ baseName r = Some (name this) ∧
      (db' = db ∧ r ∈ db ∨
       db' = db ++ [r] ∧ (name r ∉ names db) ∧
       createdOn r = createdOn this ∧ createdBy r = createdBy this ∧
       (name r = name this ∧ qualifierPart r = qualifierPart this ∨
        ∃ q, name r = name this +:+ "-" +:+ q ∧ qualifierPart r = Some q))
  end.
Proof.
  intros Hrun. apply qualifiedSave_inv in Hrun. cbv zeta in Hrun.
  destruct Hrun as [(_ & Hfree & -> & -> & ->)
                   | [(s0 & rest & _ & Hown & -> & -> & ->)
                   | [(_ & _ & Hfree & -> & -> & ->)
                   | (e & -> & -> & _)]]].
  - split_and!; [done | done |]. right. split_and!; try done. by left.
  - apply latest_cons in Hown as (_ & [[Hb Ht] Hin]%filter_own_elem & _).
    split_and!; [done | done |]. by left.
  - split_and!; [done | done |]. right. split_and!; try done.
    right. by eexists.
  - done.
Qed.

Lemma run_effect_witness :
  let a := sample "my-review" "my-review" None "subjectA" 1000 in
  let this := candidate "my-review" "subjectB" "actorY" 2000 in
  let r := qualified this "2" in
  thingID r = thingID this ∧ baseName r = Some (name this) ∧
  ([a; r] = [a] ∧ r ∈ [a] ∨
   [a; r] = [a] ++ [r] ∧ (name r ∉ names [a]) ∧
   createdOn r = createdOn this ∧ createdBy r = createdBy this ∧
   (name r = name this ∧ qualifierPart r = qualifierPart this ∨
    ∃ q, name r = name this +:+ "-" +:+ q ∧ qualifierPart r = Some q)).
Proof.
  intros a this r.
  apply (run_effect no_fault [a] this [a; r] (retry_calls this "2")
           (Fulfilled r)).
  reflexivity.
Defined.

Lemma no_fault_rejected db this e :
  (qualifiedSave no_fault db this).2 = Failed e →
  name this ∈ names db ∧
  filter_baseName_thingID (name this) (thingID this) db = [] ∧
  name this +:+ "-" +:+ retry_qualifier (name this) db ∈ names db.
Proof.
  intros Hres.
  destruct (decide (name this ∈ names db)) as [Htaken | Hfree];
    [| by rewrite qualifiedSave_free in Hres].
  destruct (latest None
              (filter_baseName_thingID (name this) (thingID this) db))
    as [[|s0 rest]|e'] eqn:Hown; [| | discriminate].
  - apply latest_nil in Hown.
    rewrite (disambiguates_run no_fault db this
               (take 1 (orderBy_desc_createdOn
                          (filter_baseName (name this) db))))
      in Hres by (split_and!; done).
    cbv zeta in Hres. fold (retry_qualifier (name this) db) in Hres.
    unfold no_fault in Hres.
    destruct (decide (name this +:+ "-" +:+ retry_qualifier (name this) db
                      ∈ names db)) as [Hq | Hq]; [done |].
    by rewrite save_free in Hres.
  - by rewrite (qualifiedSave_own no_fault db this s0 rest) in Hres.
Qed.

Lemma both_taken_rejected db this :
  name this ∈ names db →
  filter_baseName_thingID (name this) (thingID this) db = [] →
  name this +:+ "-" +:+ retry_qualifier (name this) db ∈ names db →
  qualifiedSave no_fault db this
  = (db, retry_calls this (retry_qualifier (name this) db),
     Failed (DuplicatePrimaryKeyError
               (name this +:+ "-" +:+ retry_qualifier (name this) db))).
Proof.
  intros Htaken Hown Hq.
  rewrite (disambiguates_run no_fault db this
             (take 1 (orderBy_desc_createdOn
                        (filter_baseName (name this) db))))
    by (split_and!; done).
  cbv zeta. fold (retry_qualifier (name this) db).
  unfold no_fault. by rewrite save_taken.
Qed.

(** X2.  Against a store that does not fail, a run is rejected exactly
    when the requested name is taken, the thing has no row with that
    base name, and the qualified name is taken as well; the error is
    then the primary key's for the qualified name.  In every other case
    the run is fulfilled. *)
Theorem rejected_iff_both_taken db this :
  let blocked :=
    name this ∈ names db ∧
    filter_baseName_thingID (name this) (thingID this) db = [] ∧
    name this +:+ "-" +:+ retry_qualifier (name this) db ∈ names db in
  (blocked →
   qualifiedSave no_fault db this
   = (db, retry_calls this (retry_qualifier (name this) db),
      Failed (DuplicatePrimaryKeyError
                (name this +:+ "-" +:+ retry_qualifier (name this) db))))
  ∧ (¬ blocked → ∃ r, (qualifiedSave no_fault db this).2 = Fulfilled r).
Proof.
  intros blocked. split.
  - intros (Htaken & Hown & Hq). by apply both_taken_rejected.
  - intros Hnot.
    destruct (qualifiedSave no_fault db this).2 as [r|e] eqn:Hres;
      [by exists r |].
    destruct Hnot. by eapply no_fault_rejected.
Qed.

Lemma rejected_iff_both_taken_witness :
  let db := [sample "my-review" "my-review" None "subjectA" 1000;
             sample "my-review-2" "my-review-2" None "subjectD" 1500] in
  let this := candidate "my-review" "subjectB" "actorY" 2000 in
  qualifiedSave no_fault db this
  = (db, retry_calls this "2",
     Failed (DuplicatePrimaryKeyError "my-review-2"))
  ∧ ∃ r, (qualifiedSave no_fault []
            (candidate "my-review" "subjectB" "actorY" 2000)).2
         = Fulfilled r.
Proof.
  intros db this. split.
  - apply (proj1 (rejected_iff_both_taken db this)).
    split_and!; [by_decide | reflexivity | by_decide].
  - apply (proj2 (rejected_iff_both_taken [] this)).
    intros (H & _). by apply elem_of_nil in H.
Defined.

(** X3.  A base name can be blocked: when a request is rejected by a
    store that does not fail, the same name requested for any other
    thing that has no row with that base name is rejected with the same
    error, and the table stays as it is, so that the next such request
    fares no better. *)
Theorem base_name_blocked db this other e :
  (qualifiedSave no_fault db this).2 = Failed e →
  name other = name this →
  filter_baseName_thingID (name other) (thingID other) db = [] →
  e = DuplicatePrimaryKeyError
        (name this +:+ "-" +:+ retry_qualifier (name this) db) ∧
  qualifiedSave no_fault db other
  = (db, retry_calls other (retry_qualifier (name this) db), Failed e).
Proof.
  intros Hres Hname Hown.
  destruct (no_fault_rejected db this e Hres) as (Htaken & Hown0 & Hq).
  assert (He : e = DuplicatePrimaryKeyError
                 (name this +:+ "-" +:+ retry_qualifier (name this) db)).
  { rewrite both_taken_rejected in Hres by done. simpl in Hres. congruence. }
  split; [exact He |].
  rewrite (both_taken_rejected db other);
    [| by rewrite Hname | done | by rewrite Hname].
  rewrite Hname, He. reflexivity.
Qed.

Lemma base_name_blocked_witness :
  let db := [sample "my-review" "my-review" None "subjectA" 1000;
             sample "my-review-2" "my-review-2" None "subjectD" 1500] in
  let this := candidate "my-review" "subjectB" "actorY" 2000 in
  let other := candidate "my-review" "subjectC" "actorZ" 3000 in
  DuplicatePrimaryKeyError "my-review-2"
  = DuplicatePrimaryKeyError
      (name this +:+ "-" +:+ retry_qualifier (name this) db) ∧
  qualifiedSave no_fault db other
  = (db, retry_calls other (retry_qualifier (name this) db),
     Failed (DuplicatePrimaryKeyError "my-review-2")).
Proof.
  intros db this other.
  apply (base_name_blocked db this other); reflexivity.
Defined.

(** X4.  The qualifier of the retry is never NaN, whatever the rows of
    the table hold: line 59 lets a [qualifierPart] through only when
    [Number] makes a number of it, and a number plus one is a number.
    So no slug is given the [qualifierPart] "NaN". *)
Theorem qualifier_never_NaN slug slugs :
  JS.isNaN (latestQualifier slugs) = false ∧
  qualifierPart (qualify slug (latestQualifier slugs)) ≠ Some "NaN".
Proof.
  assert (Hnum : JS.isNaN (latestQualifier slugs) = false).
  { destruct slugs as [|s0 rest]; [reflexivity |]. unfold latestQualifier.
    destruct (JS.Number (qualifierPart s0)) as [| neg | m e] eqn:Hn;
      [reflexivity | reflexivity |].
    simpl negb. cbv iota. unfold JS.add, JS.binary64.
    repeat match goal with
           | |- context [if ?b then _ else _] => destruct b
           end; reflexivity. }
  split; [exact Hnum |]. rewrite qualify_qualifierPart.
  destruct (JSFacts.NumberToString_starts_plain _ Hnum)
    as (c & rest & -> & Hc).
  intros [= -> _]. done.
Qed.

(** X5.  A run makes at most four store calls, whatever the other runs
    do to the table in between and whichever of its calls fail: after
    four calls of its own it has settled, and once settled it stays as
    it is. *)
Theorem run_settles env this :
  (4 ≤ length env)%nat →
  ∃ res, stages_in env (Saving this) = Settled res.
Proof.
  assert (Hstep : ∀ fault db st,
            calls_left (step fault db st).2 = 0%nat ∨
            (calls_left (step fault db st).2 < calls_left st)%nat).
  { intros fault db st. destruct st as [s|s|s|s|res]; simpl.
    - destruct (save fault db _) as [db1 [doc|error]]; simpl; [lia |].
      destruct (is_duplicate error); simpl; lia.
    - destruct (latest fault _) as [[|s0 rest]|e]; simpl; lia.
    - destruct (latest fault _) as [slugs|e]; simpl; lia.
    - destruct (save fault db s) as [db1 res]; simpl; lia.
    - lia. }
  assert (Hgen : ∀ env st, (calls_left st ≤ length env)%nat →
                           ∃ res, stages_in env st = Settled res).
  { clear env. induction env as [|[fault db] env IH]; intros st Hlen.
    - destruct st; simpl in Hlen; try lia. by eexists.
    - simpl. apply IH. simpl in Hlen.
      destruct (Hstep fault db st); lia. }
  intros Hlen. apply Hgen. simpl. lia.
Qed.

Lemma run_settles_witness :
  let a := sample "my-review" "my-review" None "subjectA" 1000 in
  let b := sample "my-review-2" "my-review" (Some "2") "subjectB" 2000 in
  ∃ res,
    stages_in [(None, [a]); (None, [a]); (None, [a]); (None, [a; b])]
      (Saving (candidate "my-review" "subjectC" "actorZ" 3000))
    = Settled res.
Proof. intros a b. apply run_settles. simpl. lia. Defined.

Lemma step_prefix fault db st :
  db `prefix_of` (step fault db st).1.
Proof.
  destruct st as [s|s|s|s|res]; simpl.
  - destruct (save fault db _) as [db1 [doc|error]] eqn:Hs; simpl.
    + apply save_fulfilled in Hs as (_ & _ & _ & ->). by eexists.
    + apply save_failed in Hs as [-> _]. by destruct (is_duplicate error).
  - by destruct (latest fault _) as [[|s0 rest]|e].
  - by destruct (latest fault _) as [slugs|e].
  - destruct (save fault db s) as [db1 [doc|error]] eqn:Hs; simpl.
    + apply save_fulfilled in Hs as (_ & _ & _ & ->). by eexists.
    + by apply save_failed in Hs as [-> _].
  - done.
Qed.

(** X6.  Whatever runs do and however they interleave, the table only
    grows at its end: no row is removed, changed or moved; no run
    disappears; and a run that has settled keeps its result. *)
Theorem interleavings_append_only db pool db' pool' :
  rtc sys_step (db, pool) (db', pool') →
  db `prefix_of` db' ∧
  (length pool ≤ length pool')%nat ∧
  ∀ (i : nat) res, pool !! i = Some (Settled res) →
                   pool' !! i = Some (Settled res).
Proof.
  intros Hrtc.
  set (P := λ cfg : config,
              db `prefix_of` cfg.1 ∧
              (length pool ≤ length cfg.2)%nat ∧
              ∀ (i : nat) res, pool !! i = Some (Settled res) →
                               cfg.2 !! i = Some (Settled res)).
  change (P (db', pool')).
  eapply (rtc_ind_r P (db, pool)); [| | exact Hrtc]; unfold P.
  - simpl. split_and!; [done | lia | done].
  - intros cfg1 cfg2 _ Hstep (Hpre & Hlen & Hkeep).
    destruct Hstep as [db1 pool1 this | db1 pool1 j st fault db2 st2 Hj Hs];
      simpl in *.
    + split_and!; [done | rewrite length_app; simpl; lia |].
      intros i res Hi. apply lookup_app_l_Some. by apply Hkeep.
    + split_and!.
      * etrans; [exact Hpre |].
        pose proof (step_prefix fault db1 st) as Hp. by rewrite Hs in Hp.
      * by rewrite length_insert.
      * intros i res Hi. specialize (Hkeep i res Hi).
        destruct (decide (j = i)) as [-> | Hne];
          [| by rewrite list_lookup_insert_ne].
        rewrite Hj in Hkeep. injection Hkeep as ->.
        simpl in Hs. injection Hs as _ <-.
        apply list_lookup_insert_eq. by eapply lookup_lt_Some.
Qed.

Lemma interleavings_append_only_witness :
  let a := sample "my-review" "my-review" None "subjectA" 1000 in
  let thisB := candidate "my-review" "subjectB" "actorY" 2000 in
  let run := qualifiedSave no_fault [a] thisB in
  [a] `prefix_of` run.1.1 ∧
  (length [Settled (Fulfilled a)]
   ≤ length ([Settled (Fulfilled a)] ++ [Settled run.2]))%nat ∧
  ∀ (i : nat) res,
    [Settled (Fulfilled a)] !! i = Some (Settled res) →
    ([Settled (Fulfilled a)] ++ [Settled run.2]) !! i = Some (Settled res).
Proof.
  intros a thisB run.
  apply (interleavings_append_only [a] [Settled (Fulfilled a)]).
  apply qualifiedSave_sys.
Defined.

(** * Canonical Wikidata URLs *)

Section canonical_urls.
Import Wikidata.

Lemma substring_all s : String.substring 0 (String.length s) s = s.
Proof. induction s as [|c s IH]; simpl; [done | by rewrite IH]. Qed.

Lemma prefix_append p s : String.prefix p (p +:+ s) = true.
Proof.
  induction p as [|c p IH]; simpl; [by destruct s |].
  destruct (ascii_dec c c); [exact IH | done].
Qed.

Lemma drop_append p s :
  String.substring (String.length p)
    (String.length (p +:+ s) - String.length p) (p +:+ s) = s.
Proof.
  induction p as [|c p IH]; simpl.
  - rewrite Nat.sub_0_r. apply substring_all.
  - exact IH.
Qed.

Lemma replace_first_unfold pat rep s :
  replace_first pat rep s
  = if String.prefix pat s
    then rep +:+ String.substring (String.length pat)
                   (String.length s - String.length pat) s
    else match s with
         | EmptyString => EmptyString
         | String c s' => String c (replace_first pat rep s')
         end.
Proof. by destruct s. Qed.

Lemma replace_first_here pat rep s :
  replace_first pat rep (pat +:+ s) = rep +:+ s.
Proof.
  rewrite replace_first_unfold. by rewrite prefix_append, drop_append.
Qed.

Lemma replace_first_skip pat rep c s :
  String.prefix pat (String c s) = false →
  replace_first pat rep (String c s) = String c (replace_first pat rep s).
Proof. intros H. rewrite replace_first_unfold. by rewrite H. Qed.

(** No occurrence of "/entity/" begins inside a stretch without slashes
    that is followed by something else than "entity/". *)
Lemma replace_first_slashless rep h s :
  slashless h = true →
  replace_first "/entity/" rep (h +:+ s)
  = h +:+ replace_first "/entity/" rep s.
Proof.
  induction h as [|c h IH]; intros Hh; [done |].
  simpl in Hh. apply andb_prop in Hh as [Hc Hh].
  change (String c h +:+ s) with (String c (h +:+ s)).
  rewrite replace_first_skip.
  - by rewrite IH.
  - change (String.prefix "/entity/" (String c (h +:+ s)))
      with (if ascii_dec "/" c then String.prefix "entity/" (h +:+ s)
            else false).
    destruct (ascii_dec "/" c) as [<- |]; [discriminate | done].
Qed.

Lemma replace_first_absent rep s :
  slashless s = true → replace_first "/entity/" rep s = s.
Proof.
  intros Hs.
  pose proof (replace_first_slashless rep s "" Hs) as H.
  assert (Hnil : ∀ t : string, t +:+ "" = t).
  { induction t as [|c t IH]; [done |].
    change (String c (t +:+ "") = String c t). by f_equal. }
  change (replace_first "/entity/" rep "") with "" in H.
  by rewrite Hnil in H.
Qed.

Lemma canonicalize_https rest :
  canonicalize ("https:" +:+ rest)
  = replace_first "/entity/" "/wiki/" ("https:" +:+ rest).
Proof. reflexivity. Qed.

Lemma canonicalize_http rest :
  canonicalize ("http:" +:+ rest)
  = replace_first "/entity/" "/wiki/" ("https:" +:+ rest).
Proof.
  unfold canonicalize, replace_start.
  by rewrite (prefix_append "http:" rest), (drop_append "http:" rest).
Qed.

Lemma prefix_cons a p b s :
  String.prefix (String a p) (String b s)
  = if ascii_dec a b then String.prefix p s else false.
Proof. reflexivity. Qed.

Lemma slashless_cons c s :
  slashless (String c s) = true → c ≠ "/"%char ∧ slashless s = true.
Proof.
  simpl. intros [Hc Hs]%andb_prop. split; [| done].
  intros ->. discriminate.
Qed.

(** A pattern with a slash in it is no prefix of a slashless string. *)
Lemma prefix_needs_slash p1 p2 s :
  slashless s = true →
  String.prefix (p1 +:+ String "/" p2) s = false.
Proof.
  revert s. induction p1 as [|a p1 IH]; intros [|c s] Hs; try done.
  - apply slashless_cons in Hs as [Hc _].
    change ("" +:+ String "/" p2) with (String "/" p2).
    rewrite prefix_cons. by destruct (ascii_dec "/" c) as [<- |].
  - apply slashless_cons in Hs as [_ Hs].
    change (String a p1 +:+ String "/" p2)
      with (String a (p1 +:+ String "/" p2)).
    rewrite prefix_cons. destruct (ascii_dec a c); [by apply IH | done].
Qed.

(** Before the first slash, a pattern and a string it begins agree. *)
Lemma prefix_to_slash p1 p2 h r :
  slashless p1 = true → slashless h = true →
  String.prefix (p1 +:+ String "/" p2) (h +:+ String "/" r) = true →
  h = p1.
Proof.
  revert h. induction p1 as [|a p1 IH]; intros [|c h] Hp Hh Hpre; try done.
  - apply slashless_cons in Hh as [Hc _].
    change (String.prefix (String "/" p2) (String c (h +:+ String "/" r))
            = true) in Hpre.
    rewrite prefix_cons in Hpre. by destruct (ascii_dec "/" c) as [<- |].
  - apply slashless_cons in Hp as [Ha _].
    change (String.prefix (String a (p1 +:+ String "/" p2)) (String "/" r)
            = true) in Hpre.
    rewrite prefix_cons in Hpre. by destruct (ascii_dec a "/") as [-> |].
  - apply slashless_cons in Hp as [_ Hp].
    apply slashless_cons in Hh as [_ Hh].
    change (String.prefix (String a (p1 +:+ String "/" p2))
              (String c (h +:+ String "/" r)) = true) in Hpre.
    rewrite prefix_cons in Hpre.
    destruct (ascii_dec a c) as [-> |]; [| done].
    f_equal. by apply IH.
Qed.

(** Past the scheme and a host that is not called "entity", the first
    "/entity/" is looked for in the path. *)
Lemma scheme_host host path :
  slashless host = true → host ≠ "entity" →
  replace_first "/entity/" "/wiki/"
    ("https://" +:+ host +:+ String "/" path)
  = "https://" +:+ host
    +:+ replace_first "/entity/" "/wiki/" (String "/" path).
Proof.
  intros Hh Hne.
  change ("https://" +:+ host +:+ String "/" path)
    with ("https:" +:+ String "/" (String "/" (host +:+ String "/" path))).
  rewrite (replace_first_slashless "/wiki/" "https:" _ eq_refl).
  rewrite replace_first_skip by reflexivity.
  rewrite replace_first_skip.
  - by rewrite replace_first_slashless.
  - rewrite prefix_cons. cbv iota.
    change (if ascii_dec "/" "/" then ?x else _) with x.
    destruct (String.prefix "entity/" (host +:+ String "/" path)) eqn:Hp;
      [| done].
    destruct Hne.
    by apply (prefix_to_slash "entity" "" host path).
Qed.

(** X7.  For a host and an identifier without slashes (and a host other
    than "entity"), the four ways to write the address of an entity,
    with http or https and with /entity/ or /wiki/, are all made the
    https address with /wiki/, which is left as it is. *)
Theorem canonical_forms host id :
  slashless host = true → slashless id = true → host ≠ "entity" →
  let target := "https://" +:+ host +:+ "/wiki/" +:+ id in
  canonicalize ("http://" +:+ host +:+ "/entity/" +:+ id) = target ∧
  canonicalize ("https://" +:+ host +:+ "/entity/" +:+ id) = target ∧
  canonicalize ("http://" +:+ host +:+ "/wiki/" +:+ id) = target ∧
  canonicalize target = target.
Proof.
  intros Hh Hid Hne target.
  assert (Hentity : replace_first "/entity/" "/wiki/"
                      ("https://" +:+ host +:+ "/entity/" +:+ id) = target).
  { change ("/entity/" +:+ id) with (String "/" ("entity/" +:+ id)).
    rewrite scheme_host by done.
    change (String "/" ("entity/" +:+ id)) with ("/entity/" +:+ id).
    by rewrite replace_first_here. }
  assert (Hwiki : replace_first "/entity/" "/wiki/" target = target).
  { unfold target.
    change ("/wiki/" +:+ id) with (String "/" ("wiki/" +:+ id)).
    rewrite scheme_host by done.
    rewrite replace_first_skip by reflexivity.
    change ("wiki/" +:+ id) with ("wiki" +:+ String "/" id).
    rewrite (replace_first_slashless "/wiki/" "wiki" _ eq_refl).
    rewrite replace_first_unfold.
    change (String.prefix "/entity/" (String "/" id))
      with (String.prefix "entity/" id).
    pose proof (prefix_needs_slash "entity" "" id Hid) as Hp.
    change ("entity" +:+ "/") with "entity/" in Hp. rewrite Hp.
    by rewrite replace_first_absent. }
  split_and!.
  - change ("http://" +:+ host +:+ "/entity/" +:+ id)
      with ("http:" +:+ "//" +:+ host +:+ "/entity/" +:+ id).
    by rewrite canonicalize_http.
  - change ("https://" +:+ host +:+ "/entity/" +:+ id)
      with ("https:" +:+ "//" +:+ host +:+ "/entity/" +:+ id).
    by rewrite canonicalize_https.
  - change ("http://" +:+ host +:+ "/wiki/" +:+ id)
      with ("http:" +:+ "//" +:+ host +:+ "/wiki/" +:+ id).
    by rewrite canonicalize_http.
  - unfold target at 1.
    change ("https://" +:+ host +:+ "/wiki/" +:+ id)
      with ("https:" +:+ "//" +:+ host +:+ "/wiki/" +:+ id).
    by rewrite canonicalize_https.
Qed.

Lemma canonical_forms_witness :
  canonicalize "http://www.wikidata.org/entity/Q42"
  = "https://www.wikidata.org/wiki/Q42" ∧
  canonicalize "https://www.wikidata.org/entity/Q42"
  = "https://www.wikidata.org/wiki/Q42" ∧
  canonicalize "http://www.wikidata.org/wiki/Q42"
  = "https://www.wikidata.org/wiki/Q42" ∧
  canonicalize "https://www.wikidata.org/wiki/Q42"
  = "https://www.wikidata.org/wiki/Q42".
Proof.
  apply (canonical_forms "www.wikidata.org" "Q42");
    [reflexivity | reflexivity | discriminate].
Defined.

Lemma replace_first_keeps_start p s :
  slashless p = true → String.prefix p s = false →
  String.prefix p (replace_first "/entity/" "/wiki/" s) = false.
Proof.
  revert s. induction p as [|a p IH]; intros s Hp Hs.
  - by destruct s.
  - apply slashless_cons in Hp as [Ha Hp].
    rewrite replace_first_unfold.
    destruct (String.prefix "/entity/" s) eqn:He.
    + change ("/wiki/" +:+ ?t) with (String "/" ("wiki/" +:+ t)).
      rewrite prefix_cons. by destruct (ascii_dec a "/").
    + destruct s as [|c s]; [done |].
      rewrite prefix_cons in *.
      destruct (ascii_dec a c); [by apply IH | done].
Qed.

(** X8.  No address comes out of [canonicalize] with the scheme http. *)
Theorem canonicalize_never_http url :
  String.prefix "http:" (canonicalize url) = false.
Proof.
  unfold canonicalize. apply replace_first_keeps_start; [done |].
  unfold replace_start.
  destruct (String.prefix "http:" url) eqn:Hp; [reflexivity | exact Hp].
Qed.

(** The first "/entity/" may begin in the slashes after the scheme: a
    host called "entity" is taken for the path. *)
Lemma canonicalize_host_entity :
  canonicalize "https://entity/entity/Q42" = "https://wiki/entity/Q42".
Proof. reflexivity. Qed.

End canonical_urls.

(** * The search list of the Wikidata adapter *)

Section search_facts.
Import Wikidata.
Variable toUpperCase : string → string.
Variable blacklist : list (option string → bool).

Local Abbreviation good :=
  (filter (λ it, blacklisted blacklist it = false)).
Local Abbreviation row := (to_result toUpperCase).
Local Abbreviation loop := (itemloop toUpperCase blacklist).

(** What the loop has done when it is left: it has looked at the first
    [k] entries and kept the ones that are not blacklisted. *)
Lemma itemloop_spec query items results g i :
  ∃ k, (k ≤ length items)%nat ∧
       loop query items results g i
       = (results ++ (row query <$> good (take k items)),
          (g + length (good (take k items)))%nat, (i + k)%nat) ∧
       (g < displayResults →
        g + length (good (take k items)) ≤ displayResults)%nat ∧
       ((k < length items)%nat →
        (displayResults ≤ g + length (good (take k items)))%nat).
Proof.
  revert results g i.
  induction items as [|it rest IH]; intros results g i.
  - exists 0%nat. simpl. rewrite app_nil_r, !Nat.add_0_r.
    split_and!; [lia | done | lia | lia].
  - cbn [itemloop]. destruct (blacklisted blacklist it) eqn:Hb.
    + destruct (IH results g (S i)) as (k & Hk & Hrun & Hle & Hstop).
      exists (S k). simpl. rewrite filter_cons_False by (by rewrite Hb).
      rewrite Hrun. split_and!; [lia | | done | lia].
      f_equal; lia.
    + destruct (Nat.leb_spec displayResults (S g)) as [Hfull | Hmore].
      * exists 1%nat. simpl. rewrite take_0.
        rewrite filter_cons_True, filter_nil by done. simpl.
        split_and!; [lia | | lia | lia].
        repeat f_equal; lia.
      * destruct (IH (results ++ [row query it]) (S g) (S i))
          as (k & Hk & Hrun & Hle & Hstop).
        exists (S k). simpl. rewrite filter_cons_True by done.
        rewrite Hrun. simpl. rewrite <- app_assoc. simpl.
        split_and!; [lia | | lia | lia].
        repeat f_equal; lia.
Qed.

(** X9.  The rows of a page are the entries that no expression of the
    blacklist matches, in the order of the answer, among the entries the
    loop has looked at; there are at most seven rows, [goodResults]
    counts them and [resultIndex] counts the entries looked at. *)
Theorem page_rows query search :
  let '(results, goodResults, resultIndex) := loop query search [] 0 0 in
  results = (row query <$> good (take resultIndex search)) ∧
  goodResults = length results ∧
  (goodResults ≤ displayResults)%nat ∧
  (resultIndex ≤ length search)%nat.
Proof.
  destruct (itemloop_spec query search [] 0 0)
    as (k & Hk & -> & Hle & _). simpl.
  split_and!; [done | by rewrite length_fmap | | done].
  apply Hle. unfold displayResults. lia.
Qed.

(** X10.  The loop stops early only with seven rows: when fewer than
    seven rows are shown every entry of the answer has been looked at,
    and when some entry has not been looked at there are seven rows and
    the page offers "next page" from the first entry not looked at. *)
Theorem page_stops query requestedOffset search search_continue :
  let '(results, goodResults, resultIndex) := loop query search [] 0 0 in
  ((goodResults < displayResults)%nat → resultIndex = length search) ∧
  ((resultIndex < length search)%nat →
   goodResults = displayResults ∧
   nextPage (done_handler toUpperCase blacklist query requestedOffset
               search search_continue).2
   = Some (offset_or_0 requestedOffset + resultIndex)%nat).
Proof.
  unfold done_handler.
  destruct (itemloop_spec query search [] 0 0)
    as (k & Hk & -> & Hle & Hstop). simpl in *.
  assert (Hseven : (length (good (take k search)) ≤ displayResults)%nat).
  { apply Hle. unfold displayResults. lia. }
  split.
  - intros Hlt. destruct (decide (k < length search)%nat) as [Hk'|]; [| lia].
    specialize (Hstop Hk'). lia.
  - intros Hk'. specialize (Hstop Hk'). split; [lia |].
    assert (Hmore : (length (good (take k search)) <? length search)%nat
                    = true).
    { apply Nat.ltb_lt. unfold displayResults in *.
      pose proof (length_filter (λ it, blacklisted blacklist it = false)
                    (take k search)) as Hf.
      rewrite length_take in Hf. lia. }
    rewrite Hmore, orb_true_r. done.
Qed.

Lemma filter_length_all {A} (P : A → Prop) `{!∀ x, Decision (P x)} l :
  length (filter P l) = length l ↔ Forall P l.
Proof.
  induction l as [|x l IH]; [by split |].
  destruct (decide (P x)) as [Hx | Hx].
  - rewrite filter_cons_True by done. simpl. rewrite Forall_cons.
    split; [intros [= Hl]; tauto | intros [_ Hl]; f_equal; tauto].
  - rewrite filter_cons_False by done. simpl. rewrite Forall_cons.
    pose proof (length_filter P l). split; [lia | tauto].
Qed.

(** X11.  A page offers no "next page" exactly when the answer has no
    'search-continue', has at most seven entries, and no expression of
    the blacklist matches any of them.  So an answer with a blacklisted
    entry always gets a "next page", also when every entry has been
    looked at. *)
Theorem no_next_page query requestedOffset search search_continue :
  nextPage (done_handler toUpperCase blacklist query requestedOffset
              search search_continue).2 = None
  ↔ search_continue = false ∧
    (length search ≤ displayResults)%nat ∧
    Forall (λ it, blacklisted blacklist it = false) search.
Proof.
  unfold done_handler.
  destruct (itemloop_spec query search [] 0 0)
    as (k & Hk & -> & Hle & Hstop). simpl in *.
  assert (Hseven : (length (good (take k search)) ≤ displayResults)%nat).
  { apply Hle. unfold displayResults. lia. }
  pose proof (length_filter (λ it, blacklisted blacklist it = false)
                (take k search)) as Hf.
  rewrite length_take in Hf.
  destruct (Nat.ltb_spec (length (good (take k search))) (length search))
    as [Hlt | Hge].
  - rewrite orb_true_r. split; [done |]. intros (_ & Hlen & Hall).
    exfalso. destruct (decide (k < length search)%nat) as [Hk' |].
    + specialize (Hstop Hk'). lia.
    + rewrite take_ge in Hlt by lia.
      apply (proj2 (filter_length_all _ _)) in Hall. lia.
  - rewrite orb_false_r. assert (k = length search) as -> by lia.
    rewrite take_ge in * by lia.
    destruct search_continue; [split; [done | by intros [? _]] |].
    split; [| done]. intros _. split; [done |]. split; [lia |].
    apply (proj1 (filter_length_all _ _)). lia.
Qed.

End search_facts.

Lemma page_stops_witness :
  let blacklist := [Wikidata.test_literal "disambiguation page"] in
  let search :=
    Wikidata.sample_item "Douglas" "Wikimedia disambiguation page"
    :: replicate 9 (Wikidata.sample_item "Douglas Adams" "English writer")
  in
  let run :=
    Wikidata.itemloop Wikidata.upper blacklist "douglas" search [] 0 0 in
  (run.2 < length search)%nat ∧
  run.1.2 = Wikidata.displayResults ∧
  Wikidata.nextPage
    (Wikidata.done_handler Wikidata.upper blacklist "douglas" None search
       false).2
  = Some (Wikidata.offset_or_0 None + run.2)%nat.
Proof.
  intros blacklist search run.
  assert (Hlt : (run.2 < length search)%nat) by (vm_compute; lia).
  split; [exact Hlt |].
  pose proof (page_stops Wikidata.upper blacklist "douglas" None search
                false) as H.
  fold run in H. destruct run as [[results goodResults] resultIndex].
  exact (proj2 H Hlt).
Defined.

(** On that page the first entry is dropped, seven rows are shown, and
    "next page" continues after the eighth entry. *)
Lemma page_stops_sample :
  let blacklist := [Wikidata.test_literal "disambiguation page"] in
  let search :=
    Wikidata.sample_item "Douglas" "Wikimedia disambiguation page"
    :: replicate 9 (Wikidata.sample_item "Douglas Adams" "English writer")
  in
  let page := Wikidata.done_handler Wikidata.upper blacklist "douglas" None
                search false in
  length page.1 = 7%nat ∧ Wikidata.nextPage page.2 = Some 8%nat ∧
  Wikidata.title <$> head page.1 = Some "Douglas Adams".
Proof. by vm_compute. Qed.

(** * Paging through the search list *)

Lemma pop_push (prevStack : Wikidata.stack) o :
  Wikidata.pop (prevStack ++ [o]) = (o, prevStack).
Proof.
  unfold Wikidata.pop. rewrite reverse_app. simpl.
  by rewrite reverse_involutive.
Qed.

(** X12.  "Next page" and then "previous page" lead back: from a page as
    a request leaves it, the two clicks end on the same offset with the
    same stack of earlier offsets, provided the next page is not at
    offset 0 (an offset of 0 is taken for no offset). *)
Theorem next_then_previous requestedOffset prevStack resultIndex :
  let page := Wikidata.requestFn requestedOffset prevStack in
  (0 < Wikidata.offset_or_0 requestedOffset + resultIndex)%nat →
  Wikidata.click_previous (Wikidata.click_next page resultIndex) = page.
Proof.
  intros page Hpos. unfold page, Wikidata.click_next, Wikidata.requestFn.
  destruct (Wikidata.offset_or_0 requestedOffset + resultIndex)%nat
    as [|n] eqn:Hn; [lia |].
  unfold Wikidata.click_previous. simpl. rewrite pop_push.
  unfold Wikidata.requestFn.
  by destruct (Wikidata.offset_truthy requestedOffset).
Qed.

Lemma next_then_previous_witness :
  Wikidata.click_previous
    (Wikidata.click_next (Wikidata.requestFn (Some 8%nat) [None]) 9)
  = Wikidata.requestFn (Some 8%nat) [None].
Proof. apply (next_then_previous (Some 8%nat) [None] 9). simpl. lia. Defined.

(** At offset 0 the way back is lost: a first page whose answer has no
    entries but a 'search-continue' offers "next page" at offset 0,
    which is asked for as a first page with an empty stack. *)
Lemma next_at_offset_0 :
  Wikidata.click_next (Wikidata.requestFn None []) 0 = (Some 0%nat, []).
Proof. reflexivity. Qed.

(** * The date of the feed *)

Lemma feed_fold feedItems (acc : option Z) :
  match foldl Feed.newer acc feedItems with
  | Some u =>
      (acc = Some u ∨ Some u ∈ Feed.createdOn <$> feedItems) ∧
      (∀ d, acc = Some d ∨ Some d ∈ Feed.createdOn <$> feedItems → d ≤ u)
  | None => acc = None ∧ ∀ r, r ∈ feedItems → Feed.createdOn r = None
  end.
Proof.
  revert acc. induction feedItems as [|r rest IH]; intros acc.
  - simpl. destruct acc as [u|].
    + split; [by left |]. intros d [[= ->] | H]; [lia |].
      by apply elem_of_nil in H.
    + split; [done |]. intros r H. by apply elem_of_nil in H.
  - simpl. specialize (IH (Feed.newer acc r)).
    destruct (foldl Feed.newer (Feed.newer acc r) rest) as [u|].
    + destruct IH as [Hin Hmax]. split.
      * destruct Hin as [Hacc | Hin]; [| right; by right].
        unfold Feed.newer in Hacc.
        destruct acc as [a|], (Feed.createdOn r) as [d|] eqn:Hd;
          try destruct (a <? d); simplify_eq;
          first [ by left | right; rewrite <- Hd; by left | idtac ].
      * intros d [Hacc | Hd].
        -- subst acc. unfold Feed.newer in Hmax.
           destruct (Feed.createdOn r) as [d'|].
           ++ destruct (Z.ltb_spec d d').
              ** specialize (Hmax d' (or_introl eq_refl)). lia.
              ** apply Hmax. by left.
           ++ apply Hmax. by left.
        -- apply elem_of_cons in Hd as [Hd | Hd]; [| apply Hmax; by right].
           unfold Feed.newer in Hmax. rewrite <- Hd in Hmax.
           destruct acc as [a|].
           ++ destruct (Z.ltb_spec a d).
              ** apply Hmax. by left.
              ** specialize (Hmax a (or_introl eq_refl)). lia.
           ++ apply Hmax. by left.
    + destruct IH as [Hacc Hnone]. unfold Feed.newer in Hacc.
      destruct acc as [a|], (Feed.createdOn r) as [d|] eqn:Hd;
        try destruct (a <? d); simplify_eq.
      split; [done |]. intros r' [-> | H]%elem_of_cons; [done |].
      by apply Hnone.
Qed.

(** X13.  The date of the feed is the newest date of its reviews: it is
    the date of one of them and none has a later one; the feed is left
    without a date only when no review has one. *)
Theorem feed_date_newest feedItems :
  match Feed.updatedDate feedItems with
  | Some u =>
      Some u ∈ Feed.createdOn <$> feedItems ∧
      ∀ d, Some d ∈ Feed.createdOn <$> feedItems → d ≤ u
  | None => ∀ r, r ∈ feedItems → Feed.createdOn r = None
  end.
Proof.
  unfold Feed.updatedDate. pose proof (feed_fold feedItems None) as H.
  destruct (foldl Feed.newer None feedItems) as [u|].
  - destruct H as [[? | Hin] Hmax]; [done |].
    split; [done |]. intros d Hd. apply Hmax. by right.
  - by destruct H.
Qed.
